(** * Multi-domain workflow orchestrator: a shallow embedding

    This development embeds [extensions/workflows/multi_domain_orchestrator.py]
    and the parts of [extensions/agents/base.py] it relies on
    ([TaskResult], [AgentRegistry.get_agent], the [execute_task] interface).

    Python objects that the code mutates or shares are kept in an explicit
    store: context dictionaries live in a heap of dict objects and are
    handed around by reference, the executors own a state of their own
    ([World]), and every executor body that is run is appended to a ghost
    trace.  Exceptions, a task that suspends with nobody left to resume it,
    and a loop that does not come back are results of the monad [M]. *)

From Stdlib Require Import ZArith QArith List String.
From stdpp Require Import gmap strings list fin_maps relations.

Local Open Scope string_scope.
Local Open Scope list_scope.
Local Open Scope nat_scope.

Set Warnings "-register-all,-clear-no-such-hyp".

(** ** Python values *)

(** The [Any]-typed payloads ([TaskResult.data], context entries).
    Dictionaries nested in a value keep their insertion order.  Values
    are immutable here: [dict.copy()] is shallow, and what is said about a
    dictionary is about its keys and the values bound to them. *)
Inductive PyVal : Type :=
| VNone
| VBool (b : bool)
| VInt (z : Z)
| VFloat (q : Q)
| VStr (s : string)
| VList (l : list PyVal)
| VDict (d : list (string * PyVal)).

(** Exceptions, by the operation that raises them.  [str(e)] is the
    exception itself. *)
Inductive PyExn : Type :=
| NotSliceable (v : PyVal)    (* [v[:2]] on a value without slicing *)
| BadFloatFormat (v : PyVal)  (* [f"{v:.2f}"] on a value that is no number *)
| ExecutorFault (msg : string). (* an exception escaping [execute_task] *)

(** ** Insertion-ordered dictionaries with string keys *)

Module OrderedDict.
Section Ops.
Context {V : Type}.

Fixpoint get (k : string) (d : list (string * V)) : option V :=
  match d with
  | [] => None
  | (k', v) :: d' => if decide (k = k') then Some v else get k d'
  end.

(** [d[k] = v]: an existing key keeps its position. *)
Fixpoint set (k : string) (v : V) (d : list (string * V)) : list (string * V) :=
  match d with
  | [] => [(k, v)]
  | (k', v') :: d' =>
      if decide (k = k') then (k', v) :: d' else (k', v') :: set k v d'
  end.

Definition keys (d : list (string * V)) : list string := fst <$> d.
Definition values (d : list (string * V)) : list V := snd <$> d.
End Ops.
End OrderedDict.

Abbreviation odict V := (list (string * V)).
Abbreviation Ctx := (gmap string PyVal).

(** ** Data model *)

Inductive WorkflowType : Type :=
| REAL_ESTATE_DEVELOPMENT
| BUSINESS_EXPANSION
| HEALTHCARE_FACILITY
| MARKETING_CAMPAIGN
| CONSTRUCTION_PROJECT.

Definition WorkflowType_value (w : WorkflowType) : string :=
  match w with
  | REAL_ESTATE_DEVELOPMENT => "real_estate_development"
  | BUSINESS_EXPANSION => "business_expansion"
  | HEALTHCARE_FACILITY => "healthcare_facility"
  | MARKETING_CAMPAIGN => "marketing_campaign"
  | CONSTRUCTION_PROJECT => "construction_project"
  end.

Record WorkflowStep : Type := mkStep {
  step_id : string;
  agent_name : string;
  task_description : string;
  dependencies : list string;
  expected_duration : Z;
  priority : Z
}.

(** [agents/base.py], [TaskResult].  Floats are rationals, the timestamp
    is a clock reading. *)
Record TaskResult : Type := mkTaskResult {
  success : bool;
  data : PyVal;
  confidence : Q;
  execution_time : Q;
  metadata : odict PyVal;
  timestamp : Z
}.

(** An entry of [key_insights]. *)
Inductive Insight : Type :=
| HighConfidence (sid : string) (c : PyVal) (* f"{step_id}: High confidence analysis ({c:.2f})" *)
| InsightItem (v : PyVal).

(** The [summary] dictionary.  [success_rate], [average_confidence] and
    [business_impact] are floating-point figures derived from the fields
    kept here and from constants; none of them can raise. *)
Inductive Summary : Type :=
| SummaryOk (workflow_type_value : string)
            (total_steps successful_steps : nat)
            (key_insights : list Insight)
            (cross_domain_synergies : list string)
            (risk_factors : list PyVal)
| SummaryError (e : PyExn).   (* {"error": str(e)} *)

(** [WorkflowResult] without its two wall-clock fields
    ([total_duration], [timestamp]). *)
Record WorkflowResult : Type := mkWorkflowResult {
  workflow_type : WorkflowType;
  wf_success : bool;
  step_results : odict TaskResult;
  summary : Summary;
  recommendations : list PyVal
}.

Definition is_error_summary (s : Summary) : bool :=
  match s with SummaryError _ => true | SummaryOk _ _ _ _ _ _ => false end.

(** ** Executors, the store and the monad *)

(** What running the body of [execute_task] comes to: a result, an
    exception, or a suspension on something only another task could
    provide. *)
Inductive ExecOutcome : Type :=
| Returns (r : TaskResult)
| Raises (e : PyExn)
| Suspends.

(** An agent: [execute_task task context] reads the dictionary it is
    handed and the executors' state, and leaves both possibly changed. *)
Record Agent (World : Type) : Type := mkAgent {
  name : string;
  execute_task : string -> Ctx -> World -> ExecOutcome * Ctx * World
}.
Arguments mkAgent {World} _ _.
Arguments name {World} _.
Arguments execute_task {World} _ _ _ _.

(** One executor body that was run: the step, the dictionary object it
    received and its content, and [step_results] at that moment. *)
Record Call : Type := mkCall {
  call_step : WorkflowStep;
  call_loc : nat;
  call_ctx : Ctx;
  call_results : odict TaskResult
}.

Record Machine (World : Type) : Type := mkMachine {
  heap : list Ctx;                       (* dict objects, by address *)
  world : World;                         (* state owned by the executors *)
  calls : list Call;                     (* ghost trace *)
  workflow_history : list WorkflowResult (* [self.workflow_history] *)
}.
Arguments mkMachine {World} _ _ _ _.
Arguments heap {World} _.
Arguments world {World} _.
Arguments calls {World} _.
Arguments workflow_history {World} _.

Inductive Res (A : Type) : Type :=
| Ok (a : A)
| Raise (e : PyExn)
| Block        (* the only running task is suspended for good *)
| OutOfFuel.   (* the loop did not come back within the bound *)
Arguments Ok {A} _.
Arguments Raise {A} _.
Arguments Block {A}.
Arguments OutOfFuel {A}.

Definition M (World A : Type) : Type := Machine World -> Res A * Machine World.

Definition ret {World A} (a : A) : M World A := fun m => (Ok a, m).

Definition bind {World A B} (c : M World A) (k : A -> M World B) : M World B :=
  fun m =>
    match c m with
    | (Ok a, m') => k a m'
    | (Raise e, m') => (Raise e, m')
    | (Block, m') => (Block, m')
    | (OutOfFuel, m') => (OutOfFuel, m')
    end.

Notation "'let*' x ':=' c 'in' k" := (bind c (fun x => k))
  (at level 10, x pattern, c at level 100, k at level 200).

(** Functions without effect that may raise. *)
Definition Exc (A : Type) : Type := PyExn + A.

Definition ebind {A B} (c : Exc A) (k : A -> Exc B) : Exc B :=
  match c with inl e => inl e | inr a => k a end.

Notation "'let?' x ':=' c 'in' k" := (ebind c (fun x => k))
  (at level 10, x pattern, c at level 100, k at level 200).

Definition lift {World A} (c : Exc A) : M World A :=
  fun m => match c with inl e => (Raise e, m) | inr a => (Ok a, m) end.

(** ** Result aggregation *)

(** [v[:2]] followed by [list.extend]: the first two items of a list, or
    the first two characters of a string one by one. *)
Definition top2 (v : PyVal) : Exc (list PyVal) :=
  match v with
  | VList l => inr (take 2 l)
  | VStr s => inr ((fun a => VStr (String a EmptyString)) <$> take 2 (list_ascii_of_string s))
  | _ => inl (NotSliceable v)
  end.

(** [f"{v:.2f}"] accepts numbers only. *)
Definition format_2f (v : PyVal) : Exc PyVal :=
  match v with
  | VInt _ | VFloat _ | VBool _ => inr v
  | _ => inl (BadFloatFormat v)
  end.

Fixpoint extract_insights_loop (items : odict TaskResult)
    (insights : list Insight) : Exc (list Insight) :=
  match items with
  | [] => inr insights
  | (sid, result) :: rest =>
      match success result, data result with
      | true, VDict d =>
          let? insights1 :=
            match OrderedDict.get "confidence" d with
            | Some c => let? c' := format_2f c in inr (insights ++ [HighConfidence sid c'])
            | None => inr insights
            end in
          let? insights2 :=
            match OrderedDict.get "recommendations" d with
            | Some v => let? l := top2 v in inr (insights1 ++ (InsightItem <$> l))
            | None => inr insights1
            end in
          extract_insights_loop rest insights2
      | _, _ => extract_insights_loop rest insights
      end
  end.

Definition _extract_key_insights (workflow_type : WorkflowType)
    (step_results : odict TaskResult) : Exc (list Insight) :=
  let? insights := extract_insights_loop step_results [] in
  inr (take 5 insights).

Definition _identify_synergies (step_results : odict TaskResult) : list string :=
  take 3
    [ "Real estate and construction analysis alignment ensures feasible development timeline";
      "Marketing insights inform construction design for target market appeal";
      "Regulatory compliance requirements integrated into construction planning";
      "Market analysis validates investment assumptions across all domains" ].

Fixpoint identify_risks_loop (items : odict TaskResult) (risks : list PyVal)
    : Exc (list PyVal) :=
  match items with
  | [] => inr risks
  | (sid, result) :: rest =>
      match success result, data result with
      | true, VDict d =>
          match OrderedDict.get "risk_factors" d with
          | Some v => let? l := top2 v in identify_risks_loop rest (risks ++ l)
          | None => identify_risks_loop rest risks
          end
      | _, _ => identify_risks_loop rest risks
      end
  end.

Definition _identify_risks (step_results : odict TaskResult) : Exc (list PyVal) :=
  let? risks := identify_risks_loop step_results [] in
  inr (take 5
         (risks ++
          [ VStr "Coordination challenges between multiple specialized teams";
            VStr "Timeline dependencies may create bottlenecks";
            VStr "Budget allocation across domains requires careful management" ])).

Definition _generate_workflow_summary (workflow_type : WorkflowType)
    (step_results : odict TaskResult) (context : nat) : Exc Summary :=
  let successful_steps :=
    length (List.filter success (OrderedDict.values step_results)) in
  let total_steps := length step_results in
  let? key_insights := _extract_key_insights workflow_type step_results in
  let synergies := _identify_synergies step_results in
  let? risks := _identify_risks step_results in
  inr (SummaryOk (WorkflowType_value workflow_type) total_steps successful_steps
         key_insights synergies risks).

Definition generic_recommendations : list PyVal :=
  [ VStr "Implement integrated project management system for cross-domain coordination";
    VStr "Establish regular cross-functional team meetings for alignment";
    VStr "Develop standardized reporting templates for consistent communication";
    VStr "Create shared dashboard for real-time project visibility";
    VStr "Invest in training for multi-domain collaboration skills" ].

Fixpoint recommendations_loop (results : list TaskResult)
    (recommendations : list PyVal) : Exc (list PyVal) :=
  match results with
  | [] => inr recommendations
  | result :: rest =>
      match success result, data result with
      | true, VDict d =>
          match OrderedDict.get "recommendations" d with
          | Some v =>
              let? l := top2 v in recommendations_loop rest (recommendations ++ l)
          | None => recommendations_loop rest recommendations
          end
      | _, _ => recommendations_loop rest recommendations
      end
  end.

Definition _generate_recommendations (workflow_type : WorkflowType)
    (step_results : odict TaskResult) : Exc (list PyVal) :=
  let? recommendations :=
    recommendations_loop (OrderedDict.values step_results) generic_recommendations in
  inr (take 8 recommendations).

(** ** The orchestrator *)

(** [_get_workflow_definition]: the [workflows] table and its lookup
    with default. *)
Definition workflows (workflow_type : WorkflowType) : option (list WorkflowStep) :=
  match workflow_type with
  | REAL_ESTATE_DEVELOPMENT => Some
      [ mkStep "market_analysis" "real_estate_analyst"
          "Analyze market conditions and property values for development site"
          [] 30 1;
        mkStep "construction_planning" "construction_coordinator"
          "Develop construction timeline and resource requirements"
          ["market_analysis"] 45 1;
        mkStep "marketing_strategy" "marketing_strategist"
          "Create marketing strategy for property sales/leasing"
          ["market_analysis"] 35 1 ]
  | HEALTHCARE_FACILITY => Some
      [ mkStep "regulatory_compliance" "medical_research_assistant"
          "Review healthcare facility regulatory requirements"
          [] 40 1;
        mkStep "facility_construction" "construction_coordinator"
          "Plan healthcare facility construction with medical requirements"
          ["regulatory_compliance"] 50 1;
        mkStep "real_estate_evaluation" "real_estate_analyst"
          "Evaluate real estate options for healthcare facility"
          [] 25 1;
        mkStep "marketing_outreach" "marketing_strategist"
          "Develop patient acquisition and community outreach strategy"
          ["regulatory_compliance"] 30 1 ]
  | BUSINESS_EXPANSION => Some
      [ mkStep "market_research" "marketing_strategist"
          "Research target markets and competitive landscape"
          [] 40 1;
        mkStep "location_analysis" "real_estate_analyst"
          "Analyze potential business locations and real estate costs"
          ["market_research"] 35 1;
        mkStep "facility_planning" "construction_coordinator"
          "Plan facility modifications and construction requirements"
          ["location_analysis"] 30 1 ]
  | MARKETING_CAMPAIGN | CONSTRUCTION_PROJECT => None
  end.

Definition _get_workflow_definition (workflow_type : WorkflowType) : list WorkflowStep :=
  default [] (workflows workflow_type).

(** The comprehension that computes [ready_steps]. *)
Definition is_ready (completed_steps : gset string) (step : WorkflowStep) : bool :=
  bool_decide (step_id step ∉ completed_steps)
  && forallb (fun dep => bool_decide (dep ∈ completed_steps)) (dependencies step).

Definition ready_steps (workflow_steps : list WorkflowStep)
    (completed_steps : gset string) : list WorkflowStep :=
  List.filter (is_ready completed_steps) workflow_steps.

(** The body of [_enhance_context] after the copy: one assignment per
    dependency that has a result. *)
Definition add_dependency_results (deps : list string)
    (previous_results : odict TaskResult) (enhanced_context : Ctx) : Ctx :=
  foldl (fun c dep_step_id =>
           match OrderedDict.get dep_step_id previous_results with
           | Some r => <[dep_step_id +:+ "_result" := data r]> c
           | None => c
           end)
        enhanced_context deps.

(** A coroutine object: [agent.execute_task(description, context)] with
    its arguments evaluated and its body not yet started.  [co_step] is
    ghost. *)
Record Coroutine (World : Type) : Type := mkCoroutine {
  co_agent : Agent World;
  co_task : string;
  co_context : nat;
  co_step : WorkflowStep
}.
Arguments mkCoroutine {World} _ _ _ _.
Arguments co_agent {World} _.
Arguments co_task {World} _.
Arguments co_context {World} _.
Arguments co_step {World} _.

Section Orchestrator.
Variable World : Type.
(** [self.registry._agents] *)
Variable registry : gmap string (Agent World).

(** [AgentRegistry.get_agent] *)
Definition get_agent (name : string) : option (Agent World) := registry !! name.

(** [dict.copy()]: a new dict object with the same bindings. *)
Definition dict_copy (l : nat) : M World nat :=
  fun m =>
    (Ok (length (heap m)),
     mkMachine (heap m ++ [default ∅ (heap m !! l)])
               (world m) (calls m) (workflow_history m)).

Definition dict_update (l : nat) (f : Ctx -> Ctx) : M World unit :=
  fun m =>
    (Ok tt,
     mkMachine (alter f l (heap m)) (world m) (calls m) (workflow_history m)).

Definition _enhance_context (step : WorkflowStep) (original_context : nat)
    (previous_results : odict TaskResult) : M World nat :=
  let* enhanced_context := dict_copy original_context in
  let* _ := dict_update enhanced_context
         (add_dependency_results (dependencies step) previous_results) in
  ret enhanced_context.

(** The first [for] of a wave: a coroutine object per ready step whose
    agent is found; a step without agent is passed over. *)
Fixpoint create_tasks (ready : list WorkflowStep) (context : nat)
    (step_results : odict TaskResult)
    : M World (list (string * Coroutine World)) :=
  match ready with
  | [] => ret []
  | step :: rest =>
      match get_agent (agent_name step) with
      | Some agent =>
          let* enhanced_context := _enhance_context step context step_results in
          let* tasks := create_tasks rest context step_results in
          ret ((step_id step,
                mkCoroutine agent (task_description step) enhanced_context step)
               :: tasks)
      | None => create_tasks rest context step_results
      end
  end.

(** [await task] on a bare coroutine object: its body runs now, inside
    the awaiting task.  A body that suspends leaves no task to run. *)
Definition await (task : Coroutine World) (step_results : odict TaskResult)
    : M World TaskResult :=
  fun m =>
    let c := default ∅ (heap m !! co_context task) in
    let '(out, c', w') := execute_task (co_agent task) (co_task task) c (world m) in
    let m' := mkMachine (<[co_context task := c']> (heap m)) w'
                (calls m ++ [mkCall (co_step task) (co_context task) c step_results])
                (workflow_history m) in
    match out with
    | Returns r => (Ok r, m')
    | Raises e => (Raise e, m')
    | Suspends => (Block, m')
    end.

(** The second [for] of a wave. *)
Fixpoint await_all (tasks : list (string * Coroutine World))
    (step_results : odict TaskResult) (completed_steps : gset string)
    : M World (odict TaskResult * gset string) :=
  match tasks with
  | [] => ret (step_results, completed_steps)
  | (sid, task) :: rest =>
      let* result := await task step_results in
      await_all rest (OrderedDict.set sid result step_results)
                ({[sid]} ∪ completed_steps)
  end.

Definition run_wave (ready : list WorkflowStep) (context : nat)
    (step_results : odict TaskResult) (completed_steps : gset string)
    : M World (odict TaskResult * gset string) :=
  let* tasks := create_tasks ready context step_results in
  await_all tasks step_results completed_steps.

(** The [while] loop; [fuel] bounds the number of iterations. *)
Fixpoint wave_loop (fuel : nat) (workflow_steps : list WorkflowStep)
    (context : nat) (step_results : odict TaskResult)
    (completed_steps : gset string) : M World (odict TaskResult) :=
  match fuel with
  | O => fun m => (OutOfFuel, m)
  | S fuel' =>
      if (size completed_steps <? length workflow_steps)%nat then
        match ready_steps workflow_steps completed_steps with
        | [] => ret step_results
        | ready =>
            let* (step_results', completed_steps') :=
               run_wave ready context step_results completed_steps in
            wave_loop fuel' workflow_steps context step_results' completed_steps'
        end
      else ret step_results
  end.

Definition _execute_workflow_steps (fuel : nat)
    (workflow_steps : list WorkflowStep) (context : nat)
    : M World (odict TaskResult) :=
  wave_loop fuel workflow_steps context [] ∅.
End Orchestrator.

Arguments get_agent {World} _ _.
Arguments create_tasks {World} _ _ _ _.
Arguments await {World} _ _.
Arguments await_all {World} _ _ _.
Arguments run_wave {World} _ _ _ _ _.
Arguments wave_loop {World} _ _ _ _ _ _.
Arguments _execute_workflow_steps {World} _ _ _ _.
Arguments _enhance_context {World} _ _ _.
Arguments dict_copy {World} _.
Arguments dict_update {World} _ _.

(** ** [execute_workflow] *)

(** The [WorkflowResult] built by the [except] handler. *)
Definition failure_result (workflow_type : WorkflowType) (e : PyExn) : WorkflowResult :=
  mkWorkflowResult workflow_type false [] (SummaryError e)
    [VStr "Review workflow configuration and try again"].

Section ExecuteWorkflow.
Variable World : Type.
Variable registry : gmap string (Agent World).
(** [self._get_workflow_definition] *)
Variable get_definition : WorkflowType -> list WorkflowStep.

Definition append_history (result : WorkflowResult) : M World unit :=
  fun m =>
    (Ok tt, mkMachine (heap m) (world m) (calls m) (workflow_history m ++ [result])).

(** The [try] block. *)
Definition execute_workflow_body (fuel : nat) (workflow_type : WorkflowType)
    (context : nat) : M World WorkflowResult :=
  let workflow_steps := get_definition workflow_type in
  let* step_results := _execute_workflow_steps registry fuel workflow_steps context in
  let* summary := lift (_generate_workflow_summary workflow_type step_results context) in
  let* recommendations := lift (_generate_recommendations workflow_type step_results) in
  let result :=
    mkWorkflowResult workflow_type
      (forallb success (OrderedDict.values step_results))
      step_results summary recommendations in
  let* _ := append_history result in
  ret result.

(** The [try] block with its [except Exception] handler. *)
Definition execute_workflow_with (fuel : nat) (workflow_type : WorkflowType)
    (context : nat) : M World WorkflowResult :=
  fun m =>
    match execute_workflow_body fuel workflow_type context m with
    | (Raise e, m') => (Ok (failure_result workflow_type e), m')
    | r => r
    end.
End ExecuteWorkflow.

Arguments append_history {World} _.
Arguments execute_workflow_body {World} _ _ _ _ _.
Arguments execute_workflow_with {World} _ _ _ _ _.

Definition execute_workflow {World} (registry : gmap string (Agent World)) :=
  execute_workflow_with registry _get_workflow_definition.

(** * Vocabulary of the properties *)

(** ** Images of one wave *)

Definition with_heap {World} (m : Machine World) (h : list Ctx) : Machine World :=
  mkMachine h (world m) (calls m) (workflow_history m).

Section WaveImage.
Context {World : Type}.
Variable registry : gmap string (Agent World).
Variable steps : list WorkflowStep.
Implicit Types (m : Machine World) (sr : odict TaskResult) (cs : gset string).
Implicit Types (tasks : list (string * Coroutine World)).

(** What [create_tasks] returns and what it allocates, as functions of
    the ready list. *)
Fixpoint tasks_from (base : nat) (ready : list WorkflowStep)
    : list (string * Coroutine World) :=
  match ready with
  | [] => []
  | step :: rest =>
      match get_agent registry (agent_name step) with
      | Some agent =>
          (step_id step, mkCoroutine agent (task_description step) base step)
          :: tasks_from (S base) rest
      | None => tasks_from base rest
      end
  end.

Fixpoint contexts_from (c0 : Ctx) sr (ready : list WorkflowStep) : list Ctx :=
  match ready with
  | [] => []
  | step :: rest =>
      match get_agent registry (agent_name step) with
      | Some _ =>
          add_dependency_results (dependencies step) sr c0 :: contexts_from c0 sr rest
      | None => contexts_from c0 sr rest
      end
  end.

Definition task_loc (t : string * Coroutine World) : nat := co_context t.2.

(** A trace entry written while [tasks] were awaited from machine [m]
    with results [sr]. *)
Definition call_of_wave tasks m sr (c : Call) : Prop :=
  ∃ sid co, (sid, co) ∈ tasks ∧
    call_step c = co_step co ∧ call_loc c = co_context co ∧
    call_ctx c = default ∅ (heap m !! co_context co) ∧
    ∀ d, d ∉ tasks.*1 → OrderedDict.get d (call_results c) = OrderedDict.get d sr.

Definition has_agent (s : WorkflowStep) : bool :=
  bool_decide (is_Some (registry !! agent_name s)).

(** What holds of every executor body the loop runs, for a loop that
    started with [base] dict objects and the caller's context [c0]. *)
Record call_ok (base : nat) (c0 : Ctx) (c : Call) : Prop := mk_call_ok {
  call_in_steps : call_step c ∈ steps;
  call_has_agent : is_Some (registry !! agent_name (call_step c));
  call_fresh : base ≤ call_loc c;
  call_deps_defined :
    ∀ d, d ∈ dependencies (call_step c) → d ∈ step_id <$> steps;
  call_deps_done :
    ∀ d, d ∈ dependencies (call_step c) →
      ∃ r, OrderedDict.get d (call_results c) = Some r ∧
           call_ctx c !! (d +:+ "_result") = Some (data r);
  call_rest :
    ∀ k, (∀ d, d ∈ dependencies (call_step c) → k ≠ d +:+ "_result") →
      call_ctx c !! k = c0 !! k
}.
End WaveImage.

Arguments tasks_from {World} _ _ _.
Arguments contexts_from {World} _ _ _ _.
Arguments task_loc {World} _.
Arguments call_of_wave {World} _ _ _ _.
Arguments has_agent {World} _ _.
Arguments call_ok {World} _ _ _ _ _.

(** ** Executors, definitions and outcomes *)

(** An executor that comes back with a TaskResult whatever it is given. *)
Definition always_returns {World} (a : Agent World) : Prop :=
  ∀ task c w, ∃ r c' w', execute_task a task c w = (Returns r, c', w').

(** The dependency relation of a definition: [a] lists [b] as a
    prerequisite. *)
Definition dep_edge (steps : list WorkflowStep) (a b : string) : Prop :=
  ∃ s, s ∈ steps ∧ step_id s = a ∧ b ∈ dependencies s.

(** No step depends on itself, directly or transitively. *)
Definition acyclic (steps : list WorkflowStep) : Prop :=
  ∀ a, ¬ tc (dep_edge steps) a a.


(** How the outcome of [execute_workflow] derives from the outcome [o]
    of the wave loop. *)
Definition outcome_of (workflow_type : WorkflowType) (context : nat)
    (o : Res (odict TaskResult)) : Res WorkflowResult :=
  match o with
  | Ok sr =>
      match _generate_workflow_summary workflow_type sr context,
            _generate_recommendations workflow_type sr with
      | inr s, inr recs =>
          Ok (mkWorkflowResult workflow_type
                (forallb success (OrderedDict.values sr)) sr s recs)
      | inl e, _ | inr _, inl e => Ok (failure_result workflow_type e)
      end
  | Raise e => Ok (failure_result workflow_type e)
  | Block => Block
  | OutOfFuel => OutOfFuel
  end.

(** The items one step contributes to the recommendations: at most the
    first two entries of [data["recommendations"]], and only for a
    successful step whose data is a dictionary. *)
Definition domain_items (result : TaskResult) : list PyVal :=
  match success result, data result with
  | true, VDict d =>
      match OrderedDict.get "recommendations" d with
      | Some v => match top2 v with inr l => l | inl _ => [] end
      | None => []
      end
  | _, _ => []
  end.

(** The call fails with an error before anything ran: an exception
    escapes or the result carries an error summary, and the trace of
    executor invocations did not grow. *)
Definition fails_before_any_step {World : Type} (m : Machine World)
    (x : Res WorkflowResult * Machine World) : Prop :=
  ((∃ e, x.1 = Raise e) ∨ (∃ r, x.1 = Ok r ∧ is_error_summary (summary r) = true)) ∧
  calls x.2 = calls m.

(** ** Stub executors and small definitions used as concrete inputs *)

Module Examples.
(** An executor that always succeeds with confidence 0.9 and payload
    [d], and counts how often its body ran. *)
Definition stub_result (d : PyVal) : TaskResult :=
  mkTaskResult true d (9 # 10) 0 [] 0.

Definition stub (d : PyVal) : Agent nat :=
  mkAgent "stub" (λ task c w, (Returns (stub_result d), c, S w)).

Definition registry1 : gmap string (Agent nat) := {[ "stub" := stub (VDict []) ]}.

(** The caller's context is the dict object at address 0. *)
Definition machine0 : Machine nat :=
  mkMachine [ {[ "budget" := VInt 5000000 ]} ] 0 [] [].

Definition step (sid agent : string) (deps : list string) : WorkflowStep :=
  mkStep sid agent ("run " +:+ sid) deps 10 1.

(** [{A: deps=[], B: deps=[], C: deps=[A,B]}] *)
Definition diamond : list WorkflowStep :=
  [ step "A" "stub" []; step "B" "stub" []; step "C" "stub" ["A"; "B"] ].


(** A step whose executor nobody registered, next to one that has one. *)
Definition unregistered : list WorkflowStep :=
  [ step "S" "ghost" []; step "T" "stub" [] ].
End Examples.

(** ** A pair of executors that hand over a signal *)

Module Signal.
(** The executors' state is the signal.  [waiter] returns once the
    signal is set and suspends otherwise; [signaller] sets it. *)
Definition done_result : TaskResult := mkTaskResult true VNone (9 # 10) 0 [] 0.

Definition waiter : Agent bool :=
  mkAgent "waiter"
    (λ (task : string) (c : Ctx) (signalled : bool),
       if signalled then (Returns done_result, c, signalled)
       else (Suspends, c, signalled)).

Definition signaller : Agent bool :=
  mkAgent "signaller"
    (λ (task : string) (c : Ctx) (signalled : bool), (Returns done_result, c, true)).

Definition registry : gmap string (Agent bool) :=
  {[ "waiter" := waiter; "signaller" := signaller ]}.

Definition machine0 : Machine bool := mkMachine [ ∅ ] false [] [].

(** Two steps with no dependency relation between them. *)
Definition siblings : list WorkflowStep :=
  [ Examples.step "A" "waiter" []; Examples.step "B" "signaller" [] ].
End Signal.

(** Case analysis on membership in a list given by its elements. *)
Ltac step_cases H :=
  repeat (apply elem_of_cons in H as [->|H]); [.. | by apply elem_of_nil in H].

(** * Vocabulary of the further properties *)

(** ** Payloads the aggregation accepts *)

(** Values [f"{v:.2f}"] formats, and values [v[:2]] slices. *)
Definition is_number (v : PyVal) : bool :=
  match v with VInt _ | VFloat _ | VBool _ => true | _ => false end.

Definition is_sliceable (v : PyVal) : bool :=
  match v with VList _ | VStr _ => true | _ => false end.

(** The entry under [k], when there is one, satisfies [p]. *)
Definition field_ok (p : PyVal → bool) (k : string) (d : odict PyVal) : bool :=
  match OrderedDict.get k d with Some v => p v | None => true end.

(** A TaskResult the aggregation reads without an exception: a failed
    step, a payload that is no dictionary, or a dictionary whose
    ["confidence"] is a number and whose ["recommendations"] and
    ["risk_factors"] can be sliced, as far as it has them. *)
Definition payload_ok (r : TaskResult) : bool :=
  match success r, data r with
  | true, VDict d =>
      field_ok is_number "confidence" d
      && field_ok is_sliceable "recommendations" d
      && field_ok is_sliceable "risk_factors" d
  | _, _ => true
  end.

(** What one step contributes to [key_insights]: its confidence line,
    then at most two of its recommendations. *)
Definition insight_items (item : string * TaskResult) : list Insight :=
  match success item.2, data item.2 with
  | true, VDict d =>
      match OrderedDict.get "confidence" d with
      | Some c => [HighConfidence item.1 c]
      | None => []
      end
      ++ match OrderedDict.get "recommendations" d with
         | Some v => InsightItem <$> (match top2 v with inr l => l | inl _ => [] end)
         | None => []
         end
  | _, _ => []
  end.

(** What one step contributes to [risk_factors]. *)
Definition risk_items (result : TaskResult) : list PyVal :=
  match success result, data result with
  | true, VDict d =>
      match OrderedDict.get "risk_factors" d with
      | Some v => match top2 v with inr l => l | inl _ => [] end
      | None => []
      end
  | _, _ => []
  end.

(** The cross-domain risks [_identify_risks] appends. *)
Definition cross_domain_risks : list PyVal :=
  [ VStr "Coordination challenges between multiple specialized teams";
    VStr "Timeline dependencies may create bottlenecks";
    VStr "Budget allocation across domains requires careful management" ].

(** The part of [payload_ok] that [_extract_key_insights] depends on,
    and the part [_identify_risks] depends on. *)
Definition insight_ok (r : TaskResult) : bool :=
  match success r, data r with
  | true, VDict d =>
      field_ok is_number "confidence" d && field_ok is_sliceable "recommendations" d
  | _, _ => true
  end.

Definition risk_ok (r : TaskResult) : bool :=
  match success r, data r with
  | true, VDict d => field_ok is_sliceable "risk_factors" d
  | _, _ => true
  end.

(** Definitions with a dependency cycle: two steps that wait for each
    other, alone and next to a step [R] that can start. *)
Module Cycles.
Definition two_cycle : list WorkflowStep :=
  [Examples.step "A" "stub" ["B"]; Examples.step "B" "stub" ["A"]].

End Cycles.

(** ** Steps that differ in their hints only *)

(** Two steps that agree on everything but [expected_duration] and
    [priority]. *)
Definition same_schedule (s s' : WorkflowStep) : Prop :=
  step_id s = step_id s' ∧ agent_name s = agent_name s' ∧
  task_description s = task_description s' ∧
  dependencies s = dependencies s'.

Definition same_call (c c' : Call) : Prop :=
  same_schedule (call_step c) (call_step c') ∧ call_loc c = call_loc c' ∧
  call_ctx c = call_ctx c' ∧ call_results c = call_results c'.

Definition same_task {World} (t t' : string * Coroutine World) : Prop :=
  t.1 = t'.1 ∧ co_agent t.2 = co_agent t'.2 ∧ co_task t.2 = co_task t'.2 ∧
  co_context t.2 = co_context t'.2 ∧ same_schedule (co_step t.2) (co_step t'.2).

(** Machines that agree up to the hints of the steps in the trace. *)
Definition same_run {World} (m m' : Machine World) : Prop :=
  heap m = heap m' ∧ world m = world m' ∧
  workflow_history m = workflow_history m' ∧
  Forall2 same_call (calls m) (calls m').

(** [diamond] with other hints. *)
Definition diamond_hinted : list WorkflowStep :=
  [ mkStep "A" "stub" "run A" [] 90 3;
    mkStep "B" "stub" "run B" [] 5 1;
    mkStep "C" "stub" "run C" ["A"; "B"] 45 2 ].

(** ** The agent registry (agents/base.py) *)

Inductive DomainType : Type :=
| WHITE_COLLAR
| BLUE_COLLAR
| URBAN_PLANNING
| REAL_ESTATE
| CONSTRUCTION
| MUNICIPAL.

#[global] Instance DomainType_eq_dec : EqDecision DomainType.
Proof. solve_decision. Defined.

Definition DomainType_value (d : DomainType) : string :=
  match d with
  | WHITE_COLLAR => "white_collar"
  | BLUE_COLLAR => "blue_collar"
  | URBAN_PLANNING => "urban_planning"
  | REAL_ESTATE => "real_estate"
  | CONSTRUCTION => "construction"
  | MUNICIPAL => "municipal"
  end.

(** [for domain in DomainType]: the members in declaration order. *)
Definition DomainType_members : list DomainType :=
  [WHITE_COLLAR; BLUE_COLLAR; URBAN_PLANNING; REAL_ESTATE; CONSTRUCTION; MUNICIPAL].

(** What the registry and the orchestrator use of an [UrbanZonesAgent]:
    its name and [execute_task] (the [Agent]) and its domain. *)
Record UrbanZonesAgent (World : Type) : Type := mkUrbanZonesAgent {
  executor : Agent World;
  domain : DomainType
}.
Arguments mkUrbanZonesAgent {World} _ _.
Arguments executor {World} _.
Arguments domain {World} _.

Module AgentRegistry.
Section Registry.
Context {World : Type}.

(** [_agents] is a dict by name.  [_domain_agents] has a key for every
    member of [DomainType] from [__init__] on and no method removes one:
    a list of agents per member. *)
Record t : Type := mk {
  _agents : odict (UrbanZonesAgent World);
  _domain_agents : DomainType → list (UrbanZonesAgent World)
}.

(** [__init__] *)
Definition init : t := mk [] (λ _, []).

Definition register_agent (self : t) (agent : UrbanZonesAgent World) : t :=
  mk (OrderedDict.set (name (executor agent)) agent (_agents self))
     (λ d, if decide (d = domain agent)
           then _domain_agents self d ++ [agent]
           else _domain_agents self d).

Definition get_agent (self : t) (name : string) : option (UrbanZonesAgent World) :=
  OrderedDict.get name (_agents self).

Definition get_agents_by_domain (self : t) (d : DomainType)
    : list (UrbanZonesAgent World) :=
  _domain_agents self d.

Definition list_all_agents (self : t) : list (UrbanZonesAgent World) :=
  OrderedDict.values (_agents self).

(** The dict comprehension of [get_domain_summary]: an entry
    [(agent_count, agents)] under each [domain.value]. *)
Definition get_domain_summary (self : t) : odict (nat * list string) :=
  foldl (λ summary d,
           let agents := _domain_agents self d in
           OrderedDict.set (DomainType_value d)
             (length agents, (λ agent, name (executor agent)) <$> agents)
             summary)
        [] DomainType_members.

(** The [for agent in agents] loop of [register_all_agents]. *)
Definition register_all (self : t) (agents : list (UrbanZonesAgent World)) : t :=
  foldl register_agent self agents.

(** The registry as the orchestrator uses it: [get_agent] by name, then
    [execute_task] of what it returns. *)
Definition executors (self : t) : gmap string (Agent World) :=
  list_to_map ((λ p, (p.1, executor p.2)) <$> _agents self).
End Registry.
Arguments t : clear implicits.
End AgentRegistry.

(** The registrations of a domain, and those under a name. *)
Definition of_domain {World} (d : DomainType)
    (agents : list (UrbanZonesAgent World)) : list (UrbanZonesAgent World) :=
  List.filter (λ a, bool_decide (domain a = d)) agents.

Definition named {World} (n : string)
    (agents : list (UrbanZonesAgent World)) : list (UrbanZonesAgent World) :=
  List.filter (λ a, bool_decide (name (executor a) = n)) agents.


(** [agent.name] for each agent, and the dict entries of agents
    registered under distinct names. *)
Definition agent_names {World} (agents : list (UrbanZonesAgent World)) : list string :=
  (λ a, name (executor a)) <$> agents.

Definition entries {World} (agents : list (UrbanZonesAgent World))
    : odict (UrbanZonesAgent World) :=
  (λ a, (name (executor a), a)) <$> agents.

(** The sum of the [agent_count] fields of a domain summary. *)
Definition total_agent_count (summary : odict (nat * list string)) : nat :=
  sum_list ((λ v : nat * list string, v.1) <$> OrderedDict.values summary).

(** ** The order of invocation *)

(** The steps that [fuel] iterations of the loop start, in order, when
    every wave completes: wave after wave, the ready steps that have an
    agent, in the order of the definition. *)
Fixpoint schedule {World} (registry : gmap string (Agent World)) (fuel : nat)
    (steps : list WorkflowStep) (completed_steps : gset string)
    : list WorkflowStep :=
  match fuel with
  | O => []
  | S fuel' =>
      if (size completed_steps <? length steps)%nat then
        match ready_steps steps completed_steps with
        | [] => []
        | ready =>
            let wave := List.filter (has_agent registry) ready in
            wave ++ schedule registry fuel' steps
                      (list_to_set (step_id <$> wave) ∪ completed_steps)
        end
      else []
  end.

(** * Properties *)

(** ** Ordered dictionaries *)

Section OrderedDictFacts.
Context {V : Type}.
Implicit Types (d : odict V) (k : string) (v : V).

Lemma od_get_set_eq k v d : OrderedDict.get k (OrderedDict.set k v d) = Some v.
Proof.
  induction d as [|[k' v'] d IH]; simpl.
  - by rewrite decide_True.
  - destruct (decide (k = k')) as [->|Hne]; simpl.
    + by rewrite decide_True.
    + by rewrite decide_False.
Qed.

Lemma od_get_set_ne k k' v d :
  k ≠ k' → OrderedDict.get k' (OrderedDict.set k v d) = OrderedDict.get k' d.
Proof.
  intros Hne. induction d as [|[k0 v0] d IH]; simpl.
  - by rewrite decide_False.
  - destruct (decide (k = k0)) as [->|Hk]; simpl.
    + by rewrite !decide_False.
    + destruct (decide (k' = k0)); [done | apply IH].
Qed.

Lemma od_get_Some_keys k d :
  is_Some (OrderedDict.get k d) ↔ k ∈ OrderedDict.keys d.
Proof.
  unfold OrderedDict.keys.
  induction d as [|[k0 v0] d IH]; simpl.
  - split; [by intros [? ?] | by intros ?%elem_of_nil].
  - rewrite elem_of_cons. destruct (decide (k = k0)) as [->|Hk].
    + split; [by left | by eauto].
    + rewrite IH. split; [by right | by intros [?|?]].
Qed.


Lemma od_keys_set k v d :
  OrderedDict.keys (OrderedDict.set k v d) =
  if decide (k ∈ OrderedDict.keys d) then OrderedDict.keys d
  else OrderedDict.keys d ++ [k].
Proof.
  unfold OrderedDict.keys.
  induction d as [|[k0 v0] d IH].
  - simpl. destruct (decide (k ∈ [])) as [H|H]; [by apply elem_of_nil in H | done].
  - simpl. destruct (decide (k = k0)) as [->|Hk]; csimpl.
    + rewrite decide_True; [done | by left].
    + rewrite IH.
      destruct (decide (k ∈ d.*1)) as [Hin|Hnin].
      * rewrite decide_True; [done | by right].
      * rewrite decide_False; [done | rewrite elem_of_cons; naive_solver].
Qed.

Lemma od_keys_set_elem k k' v d :
  k' ∈ OrderedDict.keys (OrderedDict.set k v d) ↔ k' = k ∨ k' ∈ OrderedDict.keys d.
Proof.
  rewrite od_keys_set. case_decide; [naive_solver |].
  rewrite elem_of_app, list_elem_of_singleton. naive_solver.
Qed.

Lemma od_keys_set_NoDup k v d :
  NoDup (OrderedDict.keys d) → NoDup (OrderedDict.keys (OrderedDict.set k v d)).
Proof.
  intros Hnd. rewrite od_keys_set. case_decide; [done |].
  apply NoDup_app. split_and!; [done | | apply NoDup_singleton].
  intros x Hx ->%list_elem_of_singleton. done.
Qed.
End OrderedDictFacts.

(** ** Context enrichment *)

Lemma string_length_app (a b : string) :
  String.length (a +:+ b) = String.length a + String.length b.
Proof. induction a as [|c a IH]; simpl; [done | by rewrite IH]. Qed.

Lemma result_key_inj (a b : string) : a +:+ "_result" = b +:+ "_result" → a = b.
Proof.
  revert b. induction a as [|c a IH]; intros [|c' b]; simpl; intros H; try done.
  - exfalso. apply (f_equal String.length) in H. simpl in H.
    rewrite string_length_app in H. simpl in H. lia.
  - exfalso. apply (f_equal String.length) in H. simpl in H.
    rewrite string_length_app in H. simpl in H. lia.
  - injection H as -> H. f_equal. by apply IH.
Qed.

Lemma add_dependency_results_miss deps results (c : Ctx) k :
  (∀ d, d ∈ deps → k ≠ d +:+ "_result") →
  add_dependency_results deps results c !! k = c !! k.
Proof.
  unfold add_dependency_results. revert c.
  induction deps as [|d deps IH]; intros c Hk; simpl; [done |].
  rewrite IH by (intros d' Hd'; apply Hk; by right).
  destruct (OrderedDict.get d results); [|done].
  rewrite lookup_insert_ne; [done |]. intros Heq. by apply (Hk d); [left |].
Qed.

Lemma add_dependency_results_hit deps results (c : Ctx) d r :
  d ∈ deps → OrderedDict.get d results = Some r →
  add_dependency_results deps results c !! (d +:+ "_result") = Some (data r).
Proof.
  unfold add_dependency_results. revert c.
  induction deps as [|d0 deps IH]; intros c Hd Hr; simpl.
  - by apply elem_of_nil in Hd.
  - destruct (decide (d ∈ deps)) as [Hin|Hnin]; [by apply IH |].
    apply elem_of_cons in Hd as [<-|]; [|done].
    rewrite Hr.
    pose proof (add_dependency_results_miss deps results
                  (<[d +:+ "_result" := data r]> c) (d +:+ "_result")) as Hm.
    unfold add_dependency_results in Hm. rewrite Hm.
    + by rewrite lookup_insert_eq.
    + intros d' Hd' Heq%result_key_inj. by subst.
Qed.

(** ** One wave: creating the coroutine objects *)

Section Waves.
Context {World : Type}.
Variable registry : gmap string (Agent World).
Implicit Types (m : Machine World) (sr : odict TaskResult) (cs : gset string).

Lemma create_tasks_eq ready context sr m :
  context < length (heap m) →
  create_tasks registry ready context sr m =
    (Ok (tasks_from registry (length (heap m)) ready),
     with_heap m (heap m ++ contexts_from registry (default ∅ (heap m !! context)) sr ready)).
Proof.
  revert m. induction ready as [|step rest IH]; intros m Hctx; simpl.
  - unfold ret, with_heap. rewrite app_nil_r. by destruct m.
  - destruct (get_agent registry (agent_name step)) as [agent|]; [|by apply IH].
    unfold bind at 1. unfold _enhance_context, bind, dict_copy, dict_update, ret.
    cbn [heap world calls workflow_history].
    set (c0 := default ∅ (heap m !! context)).
    replace (alter _ (length (heap m)) (heap m ++ [c0]))
      with (heap m ++ [add_dependency_results (dependencies step) sr c0]).
    2:{ rewrite <- (Nat.add_0_r (length (heap m))) at 1. by rewrite alter_app_r. }
    rewrite IH; cbn [heap world calls workflow_history].
    2:{ rewrite length_app. simpl. lia. }
    rewrite length_app, Nat.add_1_r. unfold with_heap.
    cbn [heap world calls workflow_history].
    rewrite lookup_app_l by done. fold c0.
    by rewrite <- app_assoc.
Qed.

Lemma tasks_from_elem base ready sid co :
  (sid, co) ∈ tasks_from registry base ready →
  co_step co ∈ ready ∧ sid = step_id (co_step co) ∧
  registry !! agent_name (co_step co) = Some (co_agent co) ∧
  co_task co = task_description (co_step co) ∧ base ≤ co_context co.
Proof.
  revert base. induction ready as [|step rest IH]; intros base; simpl.
  - by intros ?%elem_of_nil.
  - destruct (get_agent registry (agent_name step)) as [agent|] eqn:Hag.
    + intros [Heq|Hin]%elem_of_cons.
      * injection Heq as -> ->. simpl. split_and!; [by left | done..].
      * apply IH in Hin as (?&?&?&?&?). split_and!; [by right | done.. | lia].
    + intros Hin. apply IH in Hin as (?&?&?&?&?). split_and!; [by right | done..].
Qed.

Lemma tasks_from_lookup base ready c0 sr i sid co :
  tasks_from registry base ready !! i = Some (sid, co) →
  co_context co = base + i ∧
  contexts_from registry c0 sr ready !! i =
    Some (add_dependency_results (dependencies (co_step co)) sr c0).
Proof.
  revert base i. induction ready as [|step rest IH]; intros base i; simpl; [done |].
  destruct (get_agent registry (agent_name step)) as [agent|]; [|by apply IH].
  destruct i as [|i]; simpl.
  - intros [= <- <-]. simpl. split; [lia | done].
  - intros H. apply IH in H as [-> ?]. split; [lia | done].
Qed.

Lemma tasks_from_locs base ready :
  (λ t, co_context t.2) <$> tasks_from registry base ready =
  seq base (length (tasks_from registry base ready)).
Proof.
  revert base. induction ready as [|step rest IH]; intros base; simpl; [done |].
  destruct (get_agent registry (agent_name step)); simpl; by rewrite ?IH.
Qed.

Lemma tasks_from_complete base ready step agent :
  step ∈ ready → registry !! agent_name step = Some agent →
  ∃ co, (step_id step, co) ∈ tasks_from registry base ready ∧ co_step co = step.
Proof.
  revert base. induction ready as [|s rest IH]; intros base Hin Hag; simpl.
  - by apply elem_of_nil in Hin.
  - apply elem_of_cons in Hin as [<-|Hin].
    + unfold get_agent. rewrite Hag. eexists. split; [by left | done].
    + destruct (IH (S base) Hin Hag) as (co & ? & ?).
      destruct (IH base Hin Hag) as (co' & ? & ?).
      destruct (get_agent registry (agent_name s)); [|by eauto].
      exists co. split; [by right | done].
Qed.

Lemma tasks_from_ids base ready :
  (tasks_from registry base ready).*1 =
  step_id <$> List.filter (λ s, bool_decide (is_Some (registry !! agent_name s))) ready.
Proof.
  revert base. induction ready as [|s rest IH]; intros base; simpl; [done |].
  unfold get_agent. destruct (registry !! agent_name s) as [a|] eqn:Ha.
  - rewrite bool_decide_eq_true_2 by eauto. simpl. by rewrite IH.
  - rewrite bool_decide_eq_false_2 by (by intros [? ?]). apply IH.
Qed.
End Waves.

(** ** One wave: awaiting the coroutine objects *)

Section Await.
Context {World : Type}.
Implicit Types (m : Machine World) (sr : odict TaskResult) (cs : gset string).
Implicit Types (tasks : list (string * Coroutine World)).

Lemma await_all_spec tasks sr cs m out m' :
  NoDup (task_loc <$> tasks) →
  await_all tasks sr cs m = (out, m') →
  ∃ ncalls,
    calls m' = calls m ++ ncalls ∧
    workflow_history m' = workflow_history m ∧
    length (heap m') = length (heap m) ∧
    (∀ l, l ∉ task_loc <$> tasks → heap m' !! l = heap m !! l) ∧
    Forall (call_of_wave tasks m sr) ncalls ∧
    ∀ sr' cs', out = Ok (sr', cs') →
      cs' = list_to_set tasks.*1 ∪ cs ∧
      (∀ d, d ∉ tasks.*1 → OrderedDict.get d sr' = OrderedDict.get d sr) ∧
      (∀ d, d ∈ OrderedDict.keys sr' ↔ d ∈ tasks.*1 ∨ d ∈ OrderedDict.keys sr) ∧
      (NoDup (OrderedDict.keys sr) → NoDup (OrderedDict.keys sr')) ∧
      (∀ t, t ∈ tasks → ∃ c, c ∈ ncalls ∧ call_step c = co_step t.2).
Proof.
  revert sr cs m. induction tasks as [|[sid co] tasks IH]; intros sr cs m Hnd Hrun.
  - simpl in Hrun. injection Hrun as <- <-. exists []. rewrite app_nil_r.
    split_and!; try done.
    intros sr' cs' [= <- <-]. split_and!; try done.
    + set_solver.
    + intros d. rewrite elem_of_nil. naive_solver.
    + by intros t ?%elem_of_nil.
  - rewrite fmap_cons in Hnd. apply NoDup_cons in Hnd as [Hfresh Hnd].
    cbn [await_all] in Hrun. unfold bind, await in Hrun.
    destruct (execute_task (co_agent co) (co_task co)
                (default ∅ (heap m !! co_context co)) (world m))
      as [[o c'] w'] eqn:Hexec.
    set (call := mkCall (co_step co) (co_context co)
                   (default ∅ (heap m !! co_context co)) sr) in Hrun.
    assert (Hcall : call_of_wave ((sid, co) :: tasks) m sr call).
    { exists sid, co. split_and!; [by left | done..]. }
    destruct o as [r| |].
    2,3: injection Hrun as <- <-; exists [call]; cbn [calls heap workflow_history];
         split_and!; [done | done | by rewrite length_insert | | by constructor | done].
    2,3: intros l Hl; apply list_lookup_insert_ne; intros <-; apply Hl; by left.
    apply IH in Hrun as (ncalls & Hcalls & Hhist & Hlen & Hframe & Hall & Hok); [|done].
    cbn [calls heap workflow_history] in *.
    exists (call :: ncalls). split_and!.
    + by rewrite Hcalls, <- app_assoc.
    + done.
    + by rewrite Hlen, length_insert.
    + intros l Hl. rewrite Hframe.
      * apply list_lookup_insert_ne. intros <-. apply Hl. by left.
      * intros Hin. apply Hl. by right.
    + constructor; [done |].
      eapply Forall_impl; [exact Hall |].
      intros c (sid' & co' & Hin & Hstep & Hloc & Hctx & Hres).
      exists sid', co'. split_and!; [by right | done | done | |].
      * rewrite Hctx. f_equal. apply list_lookup_insert_ne. intros Heq.
        apply Hfresh. apply list_elem_of_fmap.
        exists (sid', co'). split; [by unfold task_loc | done].
      * intros d Hd. rewrite Hres.
        -- apply od_get_set_ne. intros <-. apply Hd. by left.
        -- intros Hin'. apply Hd. by right.
    + intros sr' cs' Heq. destruct (Hok sr' cs' Heq) as (Hcs & Hget & Hkeys & Hndk & Hcov).
      split_and!.
      * rewrite Hcs. simpl. set_solver.
      * intros d Hd. rewrite Hget.
        -- apply od_get_set_ne. intros <-. apply Hd. by left.
        -- intros Hin'. apply Hd. by right.
      * intros d. rewrite Hkeys, od_keys_set_elem. simpl. rewrite elem_of_cons.
        naive_solver.
      * intros Hnd0. by apply Hndk, od_keys_set_NoDup.
      * intros t [->|Hin]%elem_of_cons.
        -- exists call. split; [by left | done].
        -- destruct (Hcov t Hin) as (c & ? & ?). exists c. split; [by right | done].
Qed.

Lemma await_all_returns tasks sr cs m :
  (∀ t, t ∈ tasks → always_returns (co_agent t.2)) →
  ∃ r m', await_all tasks sr cs m = (Ok r, m').
Proof.
  revert sr cs m. induction tasks as [|[sid co] tasks IH]; intros sr cs m Htot.
  - simpl. by eexists _, _.
  - cbn [await_all]. unfold bind, await.
    destruct (Htot (sid, co)) with (task := co_task co)
      (c := default ∅ (heap m !! co_context co)) (w := world m)
      as (r & c' & w' & Hexec); [by left |].
    simpl in Hexec. rewrite Hexec. apply IH.
    intros t Ht. apply Htot. by right.
Qed.
End Await.

(** ** The wave loop: what every run guarantees *)

Section Safety.
Context {World : Type}.
Variable registry : gmap string (Agent World).
Variable steps : list WorkflowStep.
Implicit Types (m : Machine World) (sr : odict TaskResult) (cs : gset string).

Lemma is_ready_spec cs s :
  is_ready cs s = true ↔
  (step_id s ∉ cs) ∧ (∀ d, d ∈ dependencies s → d ∈ cs).
Proof.
  unfold is_ready. rewrite andb_true_iff, bool_decide_eq_true, forallb_forall.
  split; intros [H1 H2]; (split; [done |]).
  - intros d Hd. apply list_elem_of_In in Hd. apply H2 in Hd.
    by apply bool_decide_eq_true in Hd.
  - intros d Hd. apply bool_decide_eq_true, H2. by apply list_elem_of_In.
Qed.

Lemma ready_steps_spec cs s :
  s ∈ ready_steps steps cs ↔
  s ∈ steps ∧ (step_id s ∉ cs) ∧ (∀ d, d ∈ dependencies s → d ∈ cs).
Proof.
  unfold ready_steps. rewrite list_elem_of_In, filter_In, <- list_elem_of_In.
  by rewrite is_ready_spec.
Qed.

Lemma run_wave_spec ready context sr cs m out m' :
  (∀ s, s ∈ ready → s ∈ ready_steps steps cs) →
  context < length (heap m) →
  (∀ d, d ∈ cs ↔ d ∈ OrderedDict.keys sr) →
  (∀ d, d ∈ cs → d ∈ step_id <$> steps) →
  run_wave registry ready context sr cs m = (out, m') →
  ∃ ncalls,
    calls m' = calls m ++ ncalls ∧
    workflow_history m' = workflow_history m ∧
    length (heap m) ≤ length (heap m') ∧
    take (length (heap m)) (heap m') = heap m ∧
    Forall (call_ok registry steps (length (heap m)) (default ∅ (heap m !! context))) ncalls ∧
    Forall (λ c, ∀ d, d ∈ dependencies (call_step c) →
              d ∈ cs ∧ OrderedDict.get d (call_results c) = OrderedDict.get d sr)
           ncalls ∧
    ∀ sr' cs', out = Ok (sr', cs') →
      cs' = list_to_set (step_id <$> List.filter (has_agent registry) ready) ∪ cs ∧
      (∀ d, d ∈ cs' ↔ d ∈ OrderedDict.keys sr') ∧
      (∀ d, d ∈ cs' → d ∈ step_id <$> steps) ∧
      (∀ d, d ∈ cs → OrderedDict.get d sr' = OrderedDict.get d sr) ∧
      (∀ d, d ∈ OrderedDict.keys sr' →
         d ∈ OrderedDict.keys sr ∨ ∃ c, c ∈ ncalls ∧ step_id (call_step c) = d) ∧
      (NoDup (OrderedDict.keys sr) → NoDup (OrderedDict.keys sr')) ∧
      (∀ s, s ∈ ready → has_agent registry s = true →
         ∃ c, c ∈ ncalls ∧ call_step c = s).
Proof.
  intros Hready Hctx Hinv Hdef Hrun.
  unfold run_wave, bind in Hrun. rewrite create_tasks_eq in Hrun by done.
  set (base := length (heap m)) in *.
  set (c0 := default ∅ (heap m !! context)) in *.
  set (tasks := tasks_from registry base ready) in *.
  set (new := contexts_from registry c0 sr ready) in *.
  assert (Hlocs : ∀ l, l < base → l ∉ task_loc <$> tasks).
  { intros l Hl Hin. unfold tasks in Hin. unfold task_loc in Hin.
    rewrite tasks_from_locs in Hin. apply elem_of_seq in Hin. lia. }
  assert (Hids : ∀ d, d ∈ tasks.*1 → (d ∉ cs) ∧ d ∈ step_id <$> steps).
  { intros d Hd. apply list_elem_of_fmap in Hd as [[sid co] [-> Hin]].
    apply tasks_from_elem in Hin as (Hs & -> & _). simpl.
    apply Hready, ready_steps_spec in Hs as (? & ? & ?).
    split; [done |]. apply list_elem_of_fmap. eauto. }
  apply await_all_spec in Hrun as (ncalls & Hcalls & Hhist & Hlen & Hframe & Hall & Hok).
  2:{ unfold tasks, task_loc. rewrite tasks_from_locs. apply NoDup_seq. }
  cbn [with_heap calls heap workflow_history] in *.
  exists ncalls. split_and!; [done | done | | | | |].
  - rewrite Hlen, length_app. lia.
  - apply list_eq. intros l. destruct (decide (l < base)) as [Hl|Hl].
    + rewrite lookup_take_lt by done. rewrite Hframe by auto.
      by rewrite lookup_app_l.
    + rewrite lookup_take_ge by lia. symmetry. apply lookup_ge_None. unfold base in Hl. lia.
  - eapply Forall_impl; [exact Hall |].
    intros c (sid & co & Hin & Hstep & Hloc & Hcctx & Hres).
    pose proof Hin as Hin'. apply tasks_from_elem in Hin' as (Hs & -> & Hag & _ & Hbase).
    apply Hready, ready_steps_spec in Hs as (Hsteps & Hnew & Hdeps).
    apply list_elem_of_lookup in Hin as [i Hi].
    apply (tasks_from_lookup registry base ready c0 sr) in Hi as [Hco Hnew_i].
    assert (Hc : call_ctx c =
                 add_dependency_results (dependencies (co_step co)) sr c0).
    { cbn [with_heap heap] in Hcctx.
      rewrite Hcctx, Hco, lookup_app_r by (unfold base; lia).
      replace (base + i - length (heap m)) with i by (unfold base; lia).
      unfold new. by rewrite Hnew_i. }
    split; rewrite ?Hstep, ?Hloc; [done | by eauto | done | by auto | |].
    + intros d Hd. pose proof (Hdeps d Hd) as Hcs.
      pose proof Hcs as Hk. apply Hinv, od_get_Some_keys in Hk as [r Hr].
      exists r. split.
      * rewrite Hres; [done |]. intros Hin. by apply Hids in Hin as [? _].
      * rewrite Hc. by apply add_dependency_results_hit.
    + intros k Hk. rewrite Hc. by apply add_dependency_results_miss.
  - eapply Forall_impl; [exact Hall |].
    intros c (sid & co & Hin & Hstep & _ & _ & Hres) d Hd. rewrite Hstep in Hd.
    apply tasks_from_elem in Hin as (Hs & _).
    apply Hready, ready_steps_spec in Hs as (_ & _ & Hdeps).
    split; [by apply Hdeps |].
    apply Hres. intros Hin. apply Hids in Hin as [Hn _]. by apply Hn, Hdeps.
  - intros sr' cs' Heq.
    destruct (Hok sr' cs' Heq) as (Hcs & Hget & Hkeys & Hndk & Hcov).
    assert (Htids : tasks.*1 = step_id <$> List.filter (has_agent registry) ready)
      by apply tasks_from_ids.
    split_and!.
    + by rewrite Hcs, Htids.
    + intros d. rewrite Hkeys, Hcs, elem_of_union, elem_of_list_to_set, Hinv. done.
    + intros d. rewrite Hcs, elem_of_union, elem_of_list_to_set.
      intros [Hd|Hd]; [by apply Hids in Hd as [_ ?] | by apply Hdef].
    + intros d Hd. apply Hget. intros Hin. by apply Hids in Hin as [? _].
    + intros d [Hd|Hd]%Hkeys; [|by left]. right.
      apply list_elem_of_fmap in Hd as [[sid co] [-> Hin]].
      destruct (Hcov _ Hin) as (c & Hc & Hstep). exists c. split; [done |].
      apply tasks_from_elem in Hin as (_ & -> & _). by rewrite Hstep.
    + done.
    + intros s Hs Hag. apply bool_decide_eq_true in Hag as [a Ha].
      destruct (tasks_from_complete registry base ready s a Hs Ha) as (co & Hin & Hco).
      destruct (Hcov _ Hin) as (c & Hc & Hstep). exists c. split; [done |].
      by rewrite Hstep.
Qed.

Lemma call_ok_weaken base base' c0 c :
  base' ≤ base → call_ok registry steps base c0 c → call_ok registry steps base' c0 c.
Proof. intros Hle [? ? ? ? ? ?]. split; [done | done | lia | done..]. Qed.

Lemma wave_loop_safe fuel context sr cs m out m' :
  context < length (heap m) →
  (∀ d, d ∈ cs ↔ d ∈ OrderedDict.keys sr) →
  (∀ d, d ∈ cs → d ∈ step_id <$> steps) →
  wave_loop registry fuel steps context sr cs m = (out, m') →
  ∃ ncalls,
    calls m' = calls m ++ ncalls ∧
    workflow_history m' = workflow_history m ∧
    length (heap m) ≤ length (heap m') ∧
    take (length (heap m)) (heap m') = heap m ∧
    Forall (call_ok registry steps (length (heap m)) (default ∅ (heap m !! context))) ncalls ∧
    ∀ srf, out = Ok srf →
      (∀ d, d ∈ cs → OrderedDict.get d srf = OrderedDict.get d sr) ∧
      (∀ d, d ∈ OrderedDict.keys srf →
         d ∈ OrderedDict.keys sr ∨ ∃ c, c ∈ ncalls ∧ step_id (call_step c) = d) ∧
      (NoDup (OrderedDict.keys sr) → NoDup (OrderedDict.keys srf)) ∧
      (∀ c d, c ∈ ncalls → d ∈ dependencies (call_step c) →
         OrderedDict.get d srf = OrderedDict.get d (call_results c)).
Proof.
  revert sr cs m.
  induction fuel as [|fuel IH]; intros sr cs m Hctx Hinv Hdef Hrun.
  { injection Hrun as <- <-. exists []. rewrite app_nil_r, firstn_all.
    split_and!; done. }
  assert (Hret : ret (World := World) sr m = (out, m') →
    ∃ ncalls,
      calls m' = calls m ++ ncalls ∧
      workflow_history m' = workflow_history m ∧
      length (heap m) ≤ length (heap m') ∧
      take (length (heap m)) (heap m') = heap m ∧
      Forall (call_ok registry steps (length (heap m)) (default ∅ (heap m !! context))) ncalls ∧
      ∀ srf, out = Ok srf →
        (∀ d, d ∈ cs → OrderedDict.get d srf = OrderedDict.get d sr) ∧
        (∀ d, d ∈ OrderedDict.keys srf →
           d ∈ OrderedDict.keys sr ∨ ∃ c, c ∈ ncalls ∧ step_id (call_step c) = d) ∧
        (NoDup (OrderedDict.keys sr) → NoDup (OrderedDict.keys srf)) ∧
        (∀ c d, c ∈ ncalls → d ∈ dependencies (call_step c) →
           OrderedDict.get d srf = OrderedDict.get d (call_results c))).
  { intros [= <- <-]. exists []. rewrite app_nil_r, firstn_all.
    split_and!; try done. intros srf [= <-]. split_and!; auto.
    by intros c d ?%elem_of_nil. }
  cbn [wave_loop] in Hrun.
  destruct (size cs <? length steps); [|by apply Hret].
  destruct (ready_steps steps cs) as [|s0 rest] eqn:Hready; [by apply Hret |].
  clear Hret. unfold bind in Hrun.
  destruct (run_wave registry (s0 :: rest) context sr cs m) as [o m1] eqn:Hwave.
  apply run_wave_spec in Hwave
    as (ncalls1 & Hcalls1 & Hhist1 & Hlen1 & Htake1 & Hall1 & Hfin1 & Hok1);
    [| by rewrite Hready | done..].
  destruct o as [[sr1 cs1]| | |].
  2-4: injection Hrun as <- <-; exists ncalls1; split_and!; done.
  destruct (Hok1 sr1 cs1 eq_refl) as (Hcs1 & Hinv1 & Hdef1 & Hget1 & Hkeys1 & Hnd1 & _).
  assert (Hc0 : heap m1 !! context = heap m !! context).
  { rewrite <- Htake1 at 1. by rewrite lookup_take_lt. }
  apply IH in Hrun
    as (ncalls2 & Hcalls2 & Hhist2 & Hlen2 & Htake2 & Hall2 & Hok2);
    [| lia | done | done].
  exists (ncalls1 ++ ncalls2). split_and!.
  - by rewrite Hcalls2, Hcalls1, <- app_assoc.
  - by rewrite Hhist2.
  - lia.
  - rewrite <- Htake1 at 2. rewrite <- Htake2 at 1.
    rewrite take_take. f_equal. lia.
  - apply Forall_app. split; [done |].
    rewrite Hc0 in Hall2. eapply Forall_impl; [exact Hall2 |].
    intros c. by apply call_ok_weaken.
  - intros srf Heq. destruct (Hok2 srf Heq) as (Hget2 & Hkeys2 & Hnd2 & Hfin2).
    split_and!.
    + intros d Hd. rewrite Hget2; [by apply Hget1 |].
      rewrite Hcs1. set_solver.
    + intros d [Hd|(c & Hc & Hid)]%Hkeys2.
      * apply Hkeys1 in Hd as [Hd|(c & Hc & Hid)]; [by left |].
        right. exists c. split; [|done]. apply elem_of_app. by left.
      * right. exists c. split; [|done]. apply elem_of_app. by right.
    + auto.
    + intros c d [Hc|Hc]%elem_of_app Hd; [|by apply Hfin2].
      rewrite Forall_forall in Hfin1. destruct (Hfin1 c Hc d Hd) as [Hdc ->].
      rewrite Hget2; [by apply Hget1 |]. rewrite Hcs1. set_solver.
Qed.

(** The loop as [_execute_workflow_steps] starts it. *)
Lemma execute_steps_safe fuel context m out m' :
  context < length (heap m) →
  _execute_workflow_steps registry fuel steps context m = (out, m') →
  ∃ ncalls,
    calls m' = calls m ++ ncalls ∧
    workflow_history m' = workflow_history m ∧
    take (length (heap m)) (heap m') = heap m ∧
    Forall (call_ok registry steps (length (heap m)) (default ∅ (heap m !! context))) ncalls ∧
    ∀ srf, out = Ok srf →
      NoDup (OrderedDict.keys srf) ∧
      (∀ d, d ∈ OrderedDict.keys srf →
         ∃ c, c ∈ ncalls ∧ step_id (call_step c) = d) ∧
      (∀ c d, c ∈ ncalls → d ∈ dependencies (call_step c) →
         OrderedDict.get d srf = OrderedDict.get d (call_results c)).
Proof.
  intros Hctx Hrun. unfold _execute_workflow_steps in Hrun.
  apply wave_loop_safe in Hrun
    as (ncalls & Hcalls & Hhist & Hlen & Htake & Hall & Hok); [| done | |].
  - exists ncalls. split_and!; try done.
    intros srf Heq. destruct (Hok srf Heq) as (_ & Hkeys & Hnd & Hfin).
    split_and!; [apply Hnd; constructor | | done].
    intros d [Hd|Hd]%Hkeys; [by apply elem_of_nil in Hd | done].
  - intros d. unfold OrderedDict.keys. simpl. set_solver.
  - set_solver.
Qed.
End Safety.

(** ** The wave loop: when it completes *)

(** A ranking that decreases along every dependency rules cycles out. *)
Lemma ranked_acyclic steps (rank : string → nat) :
  (∀ s d, s ∈ steps → d ∈ dependencies s → rank d < rank (step_id s)) →
  acyclic steps.
Proof.
  intros Hrank.
  assert (Htc : ∀ a b, tc (dep_edge steps) a b → rank b < rank a).
  { induction 1 as [a b (s & Hs & <- & Hd)|a b c (s & Hs & <- & Hd) _ IH].
    - by apply Hrank.
    - specialize (Hrank s b Hs Hd). lia. }
  intros a Ha. apply Htc in Ha. lia.
Qed.

(** In a finite non-empty set where every element has a successor inside
    the set, some element reaches itself. *)
Lemma no_sink_cycle `{Countable A} (R : relation A) (U : gset A) :
  U ≠ ∅ → (∀ a, a ∈ U → ∃ b, b ∈ U ∧ tc R a b) → ∃ a, tc R a a.
Proof.
  induction U as [|x X Hx IH] using set_ind_L; [done |].
  intros _ Hsucc.
  destruct (Hsucc x) as (b & Hb & Hxb); [set_solver |].
  destruct (decide (b = x)) as [->|Hne]; [by eauto |].
  assert (HbX : b ∈ X) by set_solver.
  apply IH; [set_solver |].
  intros a Ha. destruct (Hsucc a) as (b' & Hb' & Hab'); [set_solver |].
  destruct (decide (b' = x)) as [->|Hne'].
  - exists b. split; [done |]. by etrans.
  - exists b'. split; [set_solver | done].
Qed.

Lemma forallb_false_witness {A} (f : A → bool) (l : list A) :
  forallb f l = false → ∃ x, x ∈ l ∧ f x = false.
Proof.
  induction l as [|x l IH]; simpl; [done |].
  destruct (f x) eqn:Hfx; simpl.
  - intros (y & ? & ?)%IH. exists y. split; [by right | done].
  - intros _. exists x. split; [by left | done].
Qed.

Section Liveness.
Context {World : Type}.
Variable registry : gmap string (Agent World).
Variable steps : list WorkflowStep.
Implicit Types (m : Machine World) (sr : odict TaskResult) (cs : gset string).

Hypothesis ids_unique : NoDup (step_id <$> steps).
Hypothesis deps_defined :
  ∀ s d, s ∈ steps → d ∈ dependencies s → d ∈ step_id <$> steps.
Hypothesis no_cycle : acyclic steps.

Lemma ready_steps_nonempty cs :
  (∀ d, d ∈ cs → d ∈ step_id <$> steps) →
  size cs < length steps →
  ready_steps steps cs ≠ [].
Proof.
  intros Hsub Hsize Hnil.
  set (ids := list_to_set (step_id <$> steps) : gset string).
  assert (Hids : size ids = length steps).
  { unfold ids. rewrite size_list_to_set by done. by rewrite length_fmap. }
  destruct (no_sink_cycle (dep_edge steps) (ids ∖ cs)) as [a Ha].
  - intros Hempty. assert (ids ⊆ cs) as Hle%subseteq_size by set_solver. lia.
  - intros a [Ha Hna]%elem_of_difference.
    apply elem_of_list_to_set, list_elem_of_fmap in Ha as (s & -> & Hs).
    assert (is_ready cs s = false) as Hnr.
    { destruct (is_ready cs s) eqn:Hr; [|done].
      assert (s ∈ ready_steps steps cs) as Hin
        by (unfold ready_steps; apply list_elem_of_In, filter_In;
            split; [by apply list_elem_of_In | done]).
      rewrite Hnil in Hin. by apply elem_of_nil in Hin. }
    unfold is_ready in Hnr. rewrite bool_decide_eq_true_2 in Hnr by done.
    simpl in Hnr. apply forallb_false_witness in Hnr as (d & Hd & Hdc).
    apply bool_decide_eq_false in Hdc.
    exists d. split.
    + apply elem_of_difference. split; [|done].
      apply elem_of_list_to_set. by eapply deps_defined.
    + apply tc_once. by exists s.
  - by apply (no_cycle a).
Qed.

Hypothesis agents_registered :
  ∀ s, s ∈ steps → is_Some (registry !! agent_name s).
Hypothesis agents_return :
  ∀ s a, s ∈ steps → registry !! agent_name s = Some a → always_returns a.

Lemma wave_loop_completes fuel context sr cs m :
  context < length (heap m) →
  (∀ d, d ∈ cs ↔ d ∈ OrderedDict.keys sr) →
  (∀ d, d ∈ cs → d ∈ step_id <$> steps) →
  NoDup (OrderedDict.keys sr) →
  length steps - size cs < fuel →
  ∃ srf m',
    wave_loop registry fuel steps context sr cs m = (Ok srf, m') ∧
    NoDup (OrderedDict.keys srf) ∧
    ∀ d, d ∈ OrderedDict.keys srf ↔ d ∈ step_id <$> steps.
Proof.
  revert sr cs m.
  induction fuel as [|fuel IH]; intros sr cs m Hctx Hinv Hsub Hnd Hfuel; [lia |].
  cbn [wave_loop].
  destruct (size cs <? length steps) eqn:Hlt.
  - apply Nat.ltb_lt in Hlt.
    pose proof (ready_steps_nonempty cs Hsub Hlt) as Hne.
    destruct (ready_steps steps cs) as [|s0 rest] eqn:Hready; [done |].
    set (ready := s0 :: rest) in *.
    assert (Hin : ∀ s, s ∈ ready → s ∈ ready_steps steps cs) by by rewrite Hready.
    unfold bind.
    destruct (run_wave registry ready context sr cs m) as [o m1] eqn:Hwave.
    assert (∃ r, o = Ok r) as [[sr1 cs1] ->].
    { unfold run_wave, bind in Hwave. rewrite create_tasks_eq in Hwave by done.
      edestruct (await_all_returns (World := World)) as (r & m2 & Hr);
        [| rewrite Hr in Hwave; injection Hwave as <- _; by eauto].
      intros [sid co] (Hs & _ & Hag & _)%tasks_from_elem. simpl.
      eapply agents_return; [|exact Hag].
      by apply Hin, ready_steps_spec in Hs as (? & _). }
    apply (run_wave_spec registry steps) in Hwave
      as (ncalls & _ & _ & Hlen & _ & _ & _ & Hok); [| done..].
    destruct (Hok sr1 cs1 eq_refl) as (Hcs1 & Hinv1 & Hsub1 & _ & _ & Hnd1 & _).
    assert (Hgrow : size cs < size cs1).
    { apply subset_size. rewrite Hcs1.
      assert (Hs0 : s0 ∈ ready) by by left.
      pose proof Hs0 as (Hs0s & Hs0c & _)%Hin%ready_steps_spec.
      assert (step_id s0 ∈ step_id <$> List.filter (has_agent registry) ready).
      { apply list_elem_of_fmap. exists s0. split; [done |].
        apply list_elem_of_In, filter_In. split; [by apply list_elem_of_In |].
        by apply bool_decide_eq_true, agents_registered. }
      set_solver. }
    apply IH; [lia | done | done | auto | lia].
  - apply Nat.ltb_ge in Hlt. eexists _, _. split; [done |]. split; [done |].
    set (ids := list_to_set (step_id <$> steps) : gset string).
    assert (Heq : cs = ids).
    { apply set_subseteq_size_eq.
      - intros d Hd. apply elem_of_list_to_set. auto.
      - unfold ids. rewrite size_list_to_set by done. by rewrite length_fmap. }
    intros d. rewrite <- Hinv, Heq. unfold ids. by rewrite elem_of_list_to_set.
Qed.

Lemma execute_steps_completes fuel context m :
  context < length (heap m) →
  length steps < fuel →
  ∃ srf m',
    _execute_workflow_steps registry fuel steps context m = (Ok srf, m') ∧
    OrderedDict.keys srf ≡ₚ step_id <$> steps.
Proof.
  intros Hctx Hfuel.
  destruct (wave_loop_completes fuel context [] ∅ m)
    as (srf & m' & Hrun & Hnd & Hkeys).
  - done.
  - intros d. unfold OrderedDict.keys. simpl. set_solver.
  - set_solver.
  - constructor.
  - rewrite size_empty. lia.
  - exists srf, m'. split; [done |]. by apply NoDup_Permutation.
Qed.
End Liveness.

(** ** [execute_workflow]: the shape of every outcome *)

Lemma summary_ok_not_error workflow_type sr context s :
  _generate_workflow_summary workflow_type sr context = inr s →
  is_error_summary s = false.
Proof.
  unfold _generate_workflow_summary, ebind.
  destruct (_extract_key_insights workflow_type sr); [done |].
  destruct (_identify_risks sr); [done |]. by intros [= <-].
Qed.

Section ExecuteWorkflowFacts.
Context {World : Type}.
Variable registry : gmap string (Agent World).
Variable get_definition : WorkflowType → list WorkflowStep.

Lemma execute_workflow_with_inv fuel workflow_type context (m : Machine World) :
  let r := _execute_workflow_steps registry fuel
             (get_definition workflow_type) context m in
  let r' := execute_workflow_with registry get_definition fuel
              workflow_type context m in
  r'.1 = outcome_of workflow_type context r.1 ∧
  heap r'.2 = heap r.2 ∧ world r'.2 = world r.2 ∧ calls r'.2 = calls r.2.
Proof.
  unfold execute_workflow_with, execute_workflow_body, bind. simpl.
  destruct (_execute_workflow_steps registry fuel
              (get_definition workflow_type) context m) as [[sr|e| |] m1];
    simpl; [|done..].
  unfold lift.
  destruct (_generate_workflow_summary workflow_type sr context) as [e|s];
    simpl; [done |].
  destruct (_generate_recommendations workflow_type sr) as [e|recs]; done.
Qed.
End ExecuteWorkflowFacts.

Section ExecuteWorkflowSafety.
Context {World : Type}.
Variable registry : gmap string (Agent World).
Variable get_definition : WorkflowType → list WorkflowStep.

Lemma execute_workflow_safe fuel workflow_type context (m : Machine World) :
  context < length (heap m) →
  ∃ ncalls,
    calls (execute_workflow_with registry get_definition fuel
             workflow_type context m).2 = calls m ++ ncalls ∧
    take (length (heap m))
      (heap (execute_workflow_with registry get_definition fuel
               workflow_type context m).2) = heap m ∧
    Forall (call_ok registry (get_definition workflow_type)
              (length (heap m)) (default ∅ (heap m !! context))) ncalls ∧
    ∀ r, (execute_workflow_with registry get_definition fuel
            workflow_type context m).1 = Ok r →
      NoDup (OrderedDict.keys (step_results r)) ∧
      (∀ d, d ∈ OrderedDict.keys (step_results r) →
         ∃ c, c ∈ ncalls ∧ step_id (call_step c) = d) ∧
      (∀ c d, is_error_summary (summary r) = false →
         c ∈ ncalls → d ∈ dependencies (call_step c) →
         OrderedDict.get d (step_results r) = OrderedDict.get d (call_results c)).
Proof.
  intros Hctx.
  destruct (execute_workflow_with_inv registry get_definition fuel
              workflow_type context m) as (Hout & Hheap & _ & Hcalls).
  destruct (_execute_workflow_steps registry fuel
              (get_definition workflow_type) context m) as [o m1] eqn:Hrun.
  simpl in Hout, Hheap, Hcalls.
  apply execute_steps_safe in Hrun
    as (ncalls & Hc & _ & Htake & Hall & Hok); [|done].
  exists ncalls. rewrite Hcalls, Hheap, Hout. split_and!; [done..|].
  assert (Hfail : ∀ e r, Ok (failure_result workflow_type e) = Ok r →
    NoDup (OrderedDict.keys (step_results r)) ∧
    (∀ d, d ∈ OrderedDict.keys (step_results r) →
       ∃ c, c ∈ ncalls ∧ step_id (call_step c) = d) ∧
    (∀ c d, is_error_summary (summary r) = false →
       c ∈ ncalls → d ∈ dependencies (call_step c) →
       OrderedDict.get d (step_results r) = OrderedDict.get d (call_results c))).
  { intros e r [= <-]. simpl. split_and!; [constructor | | done].
    by intros d ?%elem_of_nil. }
  intros r. destruct o as [sr|e| |]; simpl; [| by apply Hfail | done..].
  destruct (_generate_workflow_summary workflow_type sr context) as [e|s];
    [by apply Hfail |].
  destruct (_generate_recommendations workflow_type sr) as [e|recs];
    [by apply Hfail |].
  intros [= <-]. simpl. destruct (Hok sr eq_refl) as (Hnd & Hkeys & Hfin).
  split_and!; [done | done |]. intros c d _. apply Hfin.
Qed.
End ExecuteWorkflowSafety.

(** ** Further lemmas for the claims *)

Lemma top2_length v l : top2 v = inr l → length l ≤ 2.
Proof.
  destruct v; simpl; try done; intros [= <-].
  - rewrite length_fmap, length_take. lia.
  - rewrite length_take. lia.
Qed.

Lemma domain_items_length result : length (domain_items result) ≤ 2.
Proof.
  unfold domain_items. destruct (success result); [|simpl; lia].
  destruct (data result); try (simpl; lia).
  destruct (OrderedDict.get "recommendations" d) as [v|]; [|simpl; lia].
  destruct (top2 v) eqn:Hv; [simpl; lia | by eapply top2_length].
Qed.

Lemma recommendations_loop_spec results acc recs :
  recommendations_loop results acc = inr recs →
  recs = acc ++ concat (domain_items <$> results).
Proof.
  revert acc. induction results as [|result rest IH]; intros acc; simpl.
  - intros [= <-]. by rewrite app_nil_r.
  - unfold domain_items.
    destruct (success result); [|by apply IH].
    destruct (data result); try by apply IH.
    destruct (OrderedDict.get "recommendations" d) as [v|]; [|by apply IH].
    unfold ebind. destruct (top2 v) as [e|l]; [done |].
    intros ->%IH. by rewrite app_assoc.
Qed.



(** ** A wave with executors that return *)

Section FirstWave.
Context {World : Type}.
Variable registry : gmap string (Agent World).
Variable steps : list WorkflowStep.
Implicit Types (m : Machine World) (sr : odict TaskResult) (cs : gset string).

End FirstWave.

(** ** Progress and termination of the wave loop *)

Section Progress.
Context {World : Type}.
Variable registry : gmap string (Agent World).
Variable steps : list WorkflowStep.
Implicit Types (m : Machine World) (sr : odict TaskResult) (cs : gset string).

Hypothesis ids_unique : NoDup (step_id <$> steps).
Hypothesis agents_return :
  ∀ s a, s ∈ steps → registry !! agent_name s = Some a → always_returns a.



End Progress.

Section Termination.
Context {World : Type}.
Variable registry : gmap string (Agent World).
Variable steps : list WorkflowStep.
Implicit Types (m : Machine World) (sr : odict TaskResult) (cs : gset string).

Hypothesis agents_registered :
  ∀ s, s ∈ steps → is_Some (registry !! agent_name s).
Hypothesis agents_return :
  ∀ s a, s ∈ steps → registry !! agent_name s = Some a → always_returns a.


End Termination.


(** An executor that always returns. *)
Lemma stub_always_returns d : always_returns (Examples.stub d).
Proof. intros task c w. by eexists _, _, _. Qed.

Lemma diamond_acyclic : acyclic Examples.diamond.
Proof.
  apply (ranked_acyclic _ (λ sid, if decide (sid = "C") then 1 else 0)).
  intros s d Hs Hd.
  repeat (apply elem_of_cons in Hs as [->|Hs]); [| | | by apply elem_of_nil in Hs].
  - by apply elem_of_nil in Hd.
  - by apply elem_of_nil in Hd.
  - simpl in *. repeat (apply elem_of_cons in Hd as [->|Hd]);
      [| | by apply elem_of_nil in Hd]; vm_compute; lia.
Qed.

(** ** A step without executor keeps the loop turning *)

Lemma unregistered_spins fuel sr (cs : gset string) (m : Machine nat) :
  "S" ∉ cs → "T" ∈ cs → size cs = 1 →
  wave_loop Examples.registry1 fuel Examples.unregistered 0 sr cs m = (OutOfFuel, m).
Proof.
  intros HS HT Hsize. induction fuel as [|fuel IH]; [done |].
  cbn [wave_loop]. rewrite Hsize.
  assert (Hready : ready_steps Examples.unregistered cs = [Examples.step "S" "ghost" []]).
  { unfold ready_steps, Examples.unregistered, is_ready. simpl.
    rewrite bool_decide_eq_true_2 by done.
    rewrite bool_decide_eq_false_2 by (intros H; by apply H). done. }
  rewrite Hready. simpl. unfold bind, run_wave, bind. simpl.
  assert (Hghost : get_agent Examples.registry1 "ghost" = None) by reflexivity.
  rewrite Hghost. simpl. exact IH.
Qed.

(** With [{S: executor "ghost", T: executor "stub"}] the loop runs T once
    and then finds S ready in every iteration without ever completing it:
    no bound on the iterations is enough. *)
Lemma unregistered_never_returns fuel :
  (_execute_workflow_steps Examples.registry1 fuel Examples.unregistered 0
     Examples.machine0).1 = OutOfFuel.
Proof.
  destruct fuel as [|fuel]; [done |].
  unfold _execute_workflow_steps. cbn [wave_loop]. rewrite size_empty.
  assert (Hready : ready_steps Examples.unregistered ∅ = Examples.unregistered)
    by reflexivity.
  rewrite Hready. simpl. unfold bind, run_wave, bind. simpl.
  assert (Hghost : get_agent Examples.registry1 "ghost" = None) by reflexivity.
  assert (Hstub : get_agent Examples.registry1 "stub"
                  = Some (Examples.stub (VDict []))) by reflexivity.
  rewrite Hghost, Hstub. unfold bind. simpl.
  rewrite unregistered_spins; [done | | |].
  - set_solver.
  - set_solver.
  - rewrite size_union by set_solver. rewrite size_singleton, size_empty. done.
Qed.

(** ** The built-in definitions *)

(** Each definition of the [workflows] table has unique step ids, names
    only its own steps as dependencies, and has no cycle. *)
Lemma builtin_definitions_well_formed workflow_type :
  NoDup (step_id <$> _get_workflow_definition workflow_type) ∧
  (∀ s d, s ∈ _get_workflow_definition workflow_type → d ∈ dependencies s →
          d ∈ step_id <$> _get_workflow_definition workflow_type) ∧
  acyclic (_get_workflow_definition workflow_type).
Proof.
  split_and!.
  - destruct workflow_type; simpl; repeat constructor;
      rewrite ?elem_of_cons, ?elem_of_nil; naive_solver.
  - intros s d Hs Hd. destruct workflow_type; simpl in *;
      step_cases Hs; simpl in Hd; step_cases Hd;
      rewrite !elem_of_cons; naive_solver.
  - set (rank := λ sid : string,
          if decide (sid ∈ ["construction_planning"; "marketing_strategy";
                            "facility_construction"; "marketing_outreach";
                            "location_analysis"]) then 1
          else if decide (sid = "facility_planning") then 2 else 0).
    apply (ranked_acyclic _ rank).
    intros s d Hs Hd. destruct workflow_type; simpl in *;
      step_cases Hs; simpl in Hd; step_cases Hd; vm_compute; lia.
Qed.

(** With the agents of its steps registered and returning, each built-in
    workflow ends with one TaskResult per step within five iterations. *)
Lemma builtin_workflows_complete {World : Type}
    (registry : gmap string (Agent World)) workflow_type fuel context
    (m : Machine World) :
  (∀ s, s ∈ _get_workflow_definition workflow_type →
        is_Some (registry !! agent_name s)) →
  (∀ s a, s ∈ _get_workflow_definition workflow_type →
          registry !! agent_name s = Some a → always_returns a) →
  context < length (heap m) → 4 < fuel →
  ∃ sr m',
    _execute_workflow_steps registry fuel
      (_get_workflow_definition workflow_type) context m = (Ok sr, m') ∧
    OrderedDict.keys sr ≡ₚ step_id <$> _get_workflow_definition workflow_type.
Proof.
  intros Hreg Hret Hctx Hfuel.
  destruct (builtin_definitions_well_formed workflow_type) as (Hnd & Hdef & Hacyc).
  apply execute_steps_completes; try done.
  destruct workflow_type; simpl; lia.
Qed.

(** * The claims *)




(** C2 (as the code has it): a workflow kind without an entry in the
    [workflows] table is run as the empty workflow: no exception, no
    executor invoked, and a WorkflowResult with no step results whose
    [success] is the empty conjunction, true. *)
Theorem C2_unknown_kind_runs_empty_workflow
    {World : Type} (registry : gmap string (Agent World))
    (fuel : nat) (workflow_type : WorkflowType) (context : nat)
    (m : Machine World) :
  workflows workflow_type = None →
  ∃ r,
    (execute_workflow registry (S fuel) workflow_type context m).1 = Ok r ∧
    wf_success r = true ∧
    step_results r = [] ∧
    is_error_summary (summary r) = false ∧
    recommendations r = generic_recommendations ∧
    calls (execute_workflow registry (S fuel) workflow_type context m).2 = calls m ∧
    world (execute_workflow registry (S fuel) workflow_type context m).2 = world m ∧
    heap (execute_workflow registry (S fuel) workflow_type context m).2 = heap m.
Proof.
  intros Hnone.
  unfold execute_workflow, execute_workflow_with, execute_workflow_body,
    _get_workflow_definition, _execute_workflow_steps.
  rewrite Hnone. cbn [default wave_loop length]. rewrite size_empty.
  eexists. split_and!; reflexivity.
Qed.

Lemma C2_unknown_kind_runs_empty_workflow_witness :
  workflows CONSTRUCTION_PROJECT = None ∧
  ∃ r,
    (execute_workflow Examples.registry1 1 CONSTRUCTION_PROJECT 0
       Examples.machine0).1 = Ok r ∧
    wf_success r = true ∧ step_results r = [].
Proof.
  split; [reflexivity |].
  destruct (C2_unknown_kind_runs_empty_workflow Examples.registry1 0
              CONSTRUCTION_PROJECT 0 Examples.machine0 eq_refl)
    as (r & H1 & H2 & H3 & _).
  exists r. split_and!; assumption.
Defined.

(** C2 as stated fails: [MARKETING_CAMPAIGN] has no definition, and the
    call returns a WorkflowResult with [success=True]. *)
Lemma C2_unknown_kind_succeeds_counterexample :
  workflows MARKETING_CAMPAIGN = None ∧
  ¬ fails_before_any_step Examples.machine0
      (execute_workflow Examples.registry1 1 MARKETING_CAMPAIGN 0 Examples.machine0) ∧
  ∃ r, (execute_workflow Examples.registry1 1 MARKETING_CAMPAIGN 0
          Examples.machine0).1 = Ok r ∧ wf_success r = true.
Proof.
  split_and!; [reflexivity | | eexists; split; vm_compute; reflexivity].
  intros [[[e He]|(r & Hr & Hs)] _].
  - vm_compute in He. discriminate He.
  - vm_compute in Hr. injection Hr as <-. discriminate Hs.
Qed.




(** C4 (as the code has it): for an acyclic definition with unique step
    ids, whose dependencies all name steps of the definition and whose
    executors are all registered and return, the wave loop comes back
    after at most one iteration per step with exactly one TaskResult per
    declared step, and [execute_workflow] returns; unless the aggregation
    raised, its [step_results] are those. *)
Theorem C4_acyclic_workflow_completes
    {World : Type} (registry : gmap string (Agent World))
    (get_definition : WorkflowType → list WorkflowStep)
    (fuel : nat) (workflow_type : WorkflowType) (context : nat)
    (m : Machine World) :
  acyclic (get_definition workflow_type) →
  NoDup (step_id <$> get_definition workflow_type) →
  (∀ s d, s ∈ get_definition workflow_type → d ∈ dependencies s →
          d ∈ step_id <$> get_definition workflow_type) →
  (∀ s, s ∈ get_definition workflow_type → is_Some (registry !! agent_name s)) →
  (∀ s a, s ∈ get_definition workflow_type →
          registry !! agent_name s = Some a → always_returns a) →
  context < length (heap m) →
  length (get_definition workflow_type) < fuel →
  ∃ sr r,
    (_execute_workflow_steps registry fuel (get_definition workflow_type)
       context m).1 = Ok sr ∧
    OrderedDict.keys sr ≡ₚ step_id <$> get_definition workflow_type ∧
    (execute_workflow_with registry get_definition fuel
       workflow_type context m).1 = Ok r ∧
    (is_error_summary (summary r) = false → step_results r = sr).
Proof.
  intros Hacyc Hnd Hdef Hreg Hret Hctx Hfuel.
  destruct (execute_steps_completes registry (get_definition workflow_type)
              Hnd Hdef Hacyc Hreg Hret fuel context m Hctx Hfuel)
    as (sr & m1 & Hrun & Hperm).
  destruct (execute_workflow_with_inv registry get_definition fuel
              workflow_type context m) as (Hout & _).
  rewrite Hrun in Hout. simpl in Hout. rewrite Hout, Hrun. simpl.
  destruct (_generate_workflow_summary workflow_type sr context) as [e|s].
  { exists sr, (failure_result workflow_type e). by split_and!. }
  destruct (_generate_recommendations workflow_type sr) as [e|recs].
  { exists sr, (failure_result workflow_type e). by split_and!. }
  eexists sr, _. by split_and!.
Qed.

Lemma C4_acyclic_workflow_completes_witness :
  acyclic Examples.diamond ∧
  0 < length (heap Examples.machine0) ∧
  length Examples.diamond < 4 ∧
  ∃ sr,
    (_execute_workflow_steps Examples.registry1 4 Examples.diamond 0
       Examples.machine0).1 = Ok sr ∧
    OrderedDict.keys sr ≡ₚ step_id <$> Examples.diamond.
Proof.
  assert (H0 : acyclic Examples.diamond) by exact diamond_acyclic.
  assert (H1 : NoDup (step_id <$> Examples.diamond)).
  { simpl. repeat (apply NoDup_cons; split); [| | | apply NoDup_nil_2].
    - intros [[= ]|[[= ]|[]%elem_of_nil]%elem_of_cons]%elem_of_cons.
    - by intros [= ]%list_elem_of_singleton.
    - by intros ?%elem_of_nil. }
  assert (H2 : ∀ s d, s ∈ Examples.diamond → d ∈ dependencies s →
                      d ∈ step_id <$> Examples.diamond).
  { intros s d Hs Hd.
    repeat (apply elem_of_cons in Hs as [->|Hs]); [| | | by apply elem_of_nil in Hs];
      simpl in *.
    - by apply elem_of_nil in Hd.
    - by apply elem_of_nil in Hd.
    - repeat (apply elem_of_cons in Hd as [->|Hd]); [| | by apply elem_of_nil in Hd].
      + by left.
      + right; by left. }
  assert (H3 : ∀ s, s ∈ Examples.diamond →
                    is_Some (Examples.registry1 !! agent_name s)).
  { intros s Hs.
    repeat (apply elem_of_cons in Hs as [->|Hs]); [| | | by apply elem_of_nil in Hs];
      by eexists. }
  assert (H4 : ∀ s a, s ∈ Examples.diamond →
                      Examples.registry1 !! agent_name s = Some a → always_returns a).
  { intros s a Hs Ha.
    repeat (apply elem_of_cons in Hs as [->|Hs]); [| | | by apply elem_of_nil in Hs];
      vm_compute in Ha; injection Ha as <-; apply stub_always_returns. }
  assert (H5 : 0 < length (heap Examples.machine0)) by (simpl; lia).
  assert (H6 : length Examples.diamond < 4) by (simpl; lia).
  split_and!; try assumption.
  destruct (C4_acyclic_workflow_completes Examples.registry1
              (λ _, Examples.diamond) 4 REAL_ESTATE_DEVELOPMENT 0
              Examples.machine0 H0 H1 H2 H3 H4 H5 H6) as (sr & r & Ha & Hb & _).
  exists sr. split; assumption.
Defined.

(** C4 as stated fails: [{A: deps=[X]}] is acyclic, the call comes back
    without any error, and no step has a TaskResult. *)
Lemma C4_partial_results_counterexample :
  acyclic [Examples.step "A" "stub" ["X"]] ∧
  ∃ r,
    (execute_workflow_with Examples.registry1
       (λ _, [Examples.step "A" "stub" ["X"]]) 2
       REAL_ESTATE_DEVELOPMENT 0 Examples.machine0).1 = Ok r ∧
    is_error_summary (summary r) = false ∧
    wf_success r = true ∧
    step_results r = [] ∧
    ¬ (OrderedDict.keys (step_results r)
       ≡ₚ step_id <$> [Examples.step "A" "stub" ["X"]]).
Proof.
  split.
  - apply (ranked_acyclic _ (λ sid, if decide (sid = "A") then 1 else 0)).
    intros s d ->%list_elem_of_singleton ->%list_elem_of_singleton.
    vm_compute. lia.
  - eexists. split_and!; [vm_compute; reflexivity | reflexivity..|].
    simpl. intros H%Permutation_length. discriminate H.
Qed.

(** C5 (as the code has it): a returned WorkflowResult has [success] true
    exactly when no exception was caught and every recorded TaskResult
    succeeded; when an exception was caught [success] is false and no step
    result is reported. *)
Theorem C5_success_is_conjunction
    {World : Type} (registry : gmap string (Agent World))
    (get_definition : WorkflowType → list WorkflowStep)
    (fuel : nat) (workflow_type : WorkflowType) (context : nat)
    (m : Machine World) (r : WorkflowResult) :
  (execute_workflow_with registry get_definition fuel
     workflow_type context m).1 = Ok r →
  (wf_success r = true ↔
     is_error_summary (summary r) = false ∧
     ∀ tr, tr ∈ OrderedDict.values (step_results r) → success tr = true) ∧
  (is_error_summary (summary r) = false →
     wf_success r = forallb success (OrderedDict.values (step_results r))) ∧
  (is_error_summary (summary r) = true →
     wf_success r = false ∧ step_results r = []).
Proof.
  destruct (execute_workflow_with_inv registry get_definition fuel
              workflow_type context m) as (-> & _).
  assert (Hfail : ∀ e, Ok (failure_result workflow_type e) = Ok r →
    (wf_success r = true ↔
       is_error_summary (summary r) = false ∧
       ∀ tr, tr ∈ OrderedDict.values (step_results r) → success tr = true) ∧
    (is_error_summary (summary r) = false →
       wf_success r = forallb success (OrderedDict.values (step_results r))) ∧
    (is_error_summary (summary r) = true →
       wf_success r = false ∧ step_results r = [])).
  { intros e [= <-]. simpl. split_and!; [| done | done].
    split; [done | by intros [? _]]. }
  destruct ((_execute_workflow_steps registry fuel (get_definition workflow_type)
               context m).1) as [sr|e| |]; simpl; [| by apply Hfail | done..].
  destruct (_generate_workflow_summary workflow_type sr context) as [e|s] eqn:Hs;
    [by apply Hfail |].
  destruct (_generate_recommendations workflow_type sr) as [e|recs];
    [by apply Hfail |].
  intros [= <-]. simpl. rewrite (summary_ok_not_error _ _ _ _ Hs).
  split_and!; [| done | done].
  rewrite forallb_forall. split.
  - intros H. split; [done |]. intros tr Htr. by apply H, list_elem_of_In.
  - intros [_ H] tr Htr. by apply H, list_elem_of_In.
Qed.

Lemma C5_success_is_conjunction_witness :
  ∃ r,
    (execute_workflow_with Examples.registry1 (λ _, Examples.diamond) 3
       REAL_ESTATE_DEVELOPMENT 0 Examples.machine0).1 = Ok r ∧
    (is_error_summary (summary r) = false →
       wf_success r = forallb success (OrderedDict.values (step_results r))).
Proof.
  eexists. split; [vm_compute; reflexivity |].
  refine (proj1 (proj2 (C5_success_is_conjunction Examples.registry1
                  (λ _, Examples.diamond) 3 REAL_ESTATE_DEVELOPMENT 0
                  Examples.machine0 _ _))).
  vm_compute. reflexivity.
Defined.

(** C5 as stated fails: a step succeeds, the aggregation raises on its
    payload, and the handler returns [success=False] with an empty result
    map, over which the conjunction is true. *)
Lemma C5_handler_result_counterexample :
  ∃ r,
    (execute_workflow_with
       ({[ "stub" := Examples.stub (VDict [("recommendations", VInt 5)]) ]})
       (λ _, [Examples.step "A" "stub" []]) 2
       REAL_ESTATE_DEVELOPMENT 0 Examples.machine0).1 = Ok r ∧
    ¬ (wf_success r = true ↔
       ∀ tr, tr ∈ OrderedDict.values (step_results r) → success tr = true).
Proof.
  eexists. split; [vm_compute; reflexivity |].
  simpl. intros [_ H]. discriminate H. by intros tr ?%elem_of_nil.
Qed.

(** C6 fails on the code: the coroutine objects of a wave are awaited one
    after the other, so with [A] waiting for a signal of its sibling [B]
    the call is suspended for good in [A], and the body of [B] is never
    started.  Declared in the other order the same two steps complete:
    the outcome depends on the order in which the wave is awaited. *)
Theorem C6_wave_is_awaited_serially (fuel : nat) (workflow_type : WorkflowType) :
  (execute_workflow_with Signal.registry (λ _, Signal.siblings) (S fuel)
     workflow_type 0 Signal.machine0).1 = Block ∧
  step_id ∘ call_step <$>
    calls (execute_workflow_with Signal.registry (λ _, Signal.siblings) (S fuel)
             workflow_type 0 Signal.machine0).2 = ["A"] ∧
  world (execute_workflow_with Signal.registry (λ _, Signal.siblings) (S fuel)
           workflow_type 0 Signal.machine0).2 = false ∧
  ∃ r,
    (execute_workflow_with Signal.registry (λ _, rev Signal.siblings) 2
       workflow_type 0 Signal.machine0).1 = Ok r ∧
    wf_success r = true ∧
    OrderedDict.keys (step_results r) = ["B"; "A"].
Proof.
  split_and!; [reflexivity.. |].
  destruct workflow_type; vm_compute; eexists; split_and!; reflexivity.
Qed.

(** C7: a step becomes ready only when all of its dependency ids are in
    the completed set, and whenever the body of an executor is run for a
    step, every dependency of that step already has its TaskResult in
    [step_results]; that TaskResult is the one the workflow returns. *)
Theorem C7_dependencies_recorded_before_invocation
    {World : Type} (registry : gmap string (Agent World))
    (get_definition : WorkflowType → list WorkflowStep)
    (fuel : nat) (workflow_type : WorkflowType) (context : nat)
    (m : Machine World) :
  context < length (heap m) →
  (∀ completed_steps s,
     s ∈ ready_steps (get_definition workflow_type) completed_steps ↔
     s ∈ get_definition workflow_type ∧ (step_id s ∉ completed_steps) ∧
     (∀ d, d ∈ dependencies s → d ∈ completed_steps)) ∧
  ∃ ncalls,
    calls (execute_workflow_with registry get_definition fuel
             workflow_type context m).2 = calls m ++ ncalls ∧
    (∀ c d, c ∈ ncalls → d ∈ dependencies (call_step c) →
       call_step c ∈ get_definition workflow_type ∧
       is_Some (OrderedDict.get d (call_results c))) ∧
    (∀ r c d,
       (execute_workflow_with registry get_definition fuel
          workflow_type context m).1 = Ok r →
       is_error_summary (summary r) = false →
       c ∈ ncalls → d ∈ dependencies (call_step c) →
       OrderedDict.get d (step_results r) = OrderedDict.get d (call_results c)).
Proof.
  intros Hctx. split; [intros cs s; apply ready_steps_spec |].
  destruct (execute_workflow_safe registry get_definition fuel workflow_type
              context m Hctx) as (ncalls & Hcalls & _ & Hall & Hok).
  exists ncalls. split_and!; [done | |].
  - intros c d Hc Hd. rewrite Forall_forall in Hall.
    destruct (Hall c Hc) as [Hin _ _ _ Hdone _]. split; [done |].
    destruct (Hdone d Hd) as (r & -> & _). by eexists.
  - intros r c d Hr Hs Hc Hd. destruct (Hok r Hr) as (_ & _ & Hfin). by apply Hfin.
Qed.

Lemma C7_dependencies_recorded_before_invocation_witness :
  0 < length (heap Examples.machine0) ∧
  ∃ ncalls,
    calls (execute_workflow_with Examples.registry1 (λ _, Examples.diamond) 4
             REAL_ESTATE_DEVELOPMENT 0 Examples.machine0).2 =
      calls Examples.machine0 ++ ncalls ∧
    ∀ c d, c ∈ ncalls → d ∈ dependencies (call_step c) →
      call_step c ∈ Examples.diamond ∧
      is_Some (OrderedDict.get d (call_results c)).
Proof.
  split; [simpl; lia |].
  destruct (C7_dependencies_recorded_before_invocation Examples.registry1
              (λ _, Examples.diamond) 4 REAL_ESTATE_DEVELOPMENT 0
              Examples.machine0) as (_ & ncalls & H1 & H2 & _); [simpl; lia |].
  exists ncalls. split; assumption.
Defined.



(** C9 (as the code has it): the recommendations are the five generic
    items followed by at most two items per successful step, in the order
    of the step results, cut to eight entries; nothing is deduplicated. *)
Theorem C9_recommendations_merge_and_cap
    (workflow_type : WorkflowType) (results : odict TaskResult)
    (recs : list PyVal) :
  _generate_recommendations workflow_type results = inr recs →
  recs = take 8 (generic_recommendations
                 ++ concat (domain_items <$> OrderedDict.values results)) ∧
  (∀ result, length (domain_items result) ≤ 2) ∧
  (∀ result, success result = false → domain_items result = []) ∧
  take 5 recs = generic_recommendations ∧
  length recs ≤ 8.
Proof.
  unfold _generate_recommendations, ebind.
  destruct (recommendations_loop (OrderedDict.values results)
              generic_recommendations) as [e|all] eqn:Hloop; [done |].
  intros [= <-]. apply recommendations_loop_spec in Hloop as ->.
  split_and!.
  - done.
  - apply domain_items_length.
  - intros result Hf. unfold domain_items. by rewrite Hf.
  - rewrite take_take. by rewrite take_app_le by (simpl; lia).
  - rewrite length_take. lia.
Qed.

Lemma C9_recommendations_merge_and_cap_witness :
  _generate_recommendations REAL_ESTATE_DEVELOPMENT
    [("a", Examples.stub_result (VDict [("recommendations",
                                         VList [VStr "x"; VStr "y"; VStr "z"])]))]
  = inr (generic_recommendations ++ [VStr "x"; VStr "y"]) ∧
  take 5 (generic_recommendations ++ [VStr "x"; VStr "y"]) = generic_recommendations.
Proof.
  split; [reflexivity |].
  exact (proj1 (proj2 (proj2 (proj2
    (C9_recommendations_merge_and_cap REAL_ESTATE_DEVELOPMENT
       [("a", Examples.stub_result (VDict [("recommendations",
                                            VList [VStr "x"; VStr "y"; VStr "z"])]))]
       (generic_recommendations ++ [VStr "x"; VStr "y"]) eq_refl))))).
Defined.

(** C9 as stated fails: two steps recommending the same thing put it in
    the list twice. *)
Lemma C9_no_deduplication_counterexample :
  ∃ recs,
    _generate_recommendations REAL_ESTATE_DEVELOPMENT
      [("a", Examples.stub_result (VDict [("recommendations", VList [VStr "Hire locally"])]));
       ("b", Examples.stub_result (VDict [("recommendations", VList [VStr "Hire locally"])]))]
    = inr recs ∧
    ¬ NoDup recs.
Proof.
  eexists. split; [reflexivity |].
  unfold generic_recommendations. simpl.
  intros H. do 5 apply NoDup_cons in H as [_ H].
  apply NoDup_cons in H as [H _]. apply H. by left.
Qed.



(** * Further properties of the code *)

(** ** The aggregation and its exceptions *)

Lemma top2_sliceable v :
  (is_sliceable v = true ∧ ∃ l, top2 v = inr l) ∨
  (is_sliceable v = false ∧ ∃ e, top2 v = inl e).
Proof. destruct v; simpl; first [left; split; [done | by eexists] | right; split; [done | by eexists]]. Qed.

Lemma format_2f_number v :
  (is_number v = true ∧ format_2f v = inr v) ∨
  (is_number v = false ∧ ∃ e, format_2f v = inl e).
Proof. destruct v; simpl; first [by left | right; split; [done | by eexists]]. Qed.

Lemma payload_ok_split r : payload_ok r = insight_ok r && risk_ok r.
Proof.
  unfold payload_ok, insight_ok, risk_ok.
  destruct (success r); [|done]. by destruct (data r).
Qed.

Lemma extract_insights_loop_spec items acc :
  (forallb insight_ok items.*2 = true ∧
   extract_insights_loop items acc = inr (acc ++ concat (insight_items <$> items))) ∨
  (forallb insight_ok items.*2 = false ∧ ∃ e, extract_insights_loop items acc = inl e).
Proof.
  revert acc. induction items as [|[sid r] items IH]; intros acc.
  { left. simpl. by rewrite app_nil_r. }
  cbn [extract_insights_loop fmap list_fmap forallb snd concat].
  unfold insight_ok at 1 3, insight_items at 1. cbn [fst snd].
  destruct (success r); [|simpl; apply IH].
  destruct (data r) as [| | | | | |d]; try (simpl; apply IH).
  unfold field_ok.
  destruct (OrderedDict.get "confidence" d) as [c|].
  - destruct (format_2f_number c) as [[-> ->]|[-> [e ->]]];
      [|right; split; [done | by eexists]].
    cbn [ebind andb].
    destruct (OrderedDict.get "recommendations" d) as [v|].
    + destruct (top2_sliceable v) as [[-> [l ->]]|[-> [e ->]]];
        [|right; split; [done | by eexists]].
      cbn [ebind andb].
      destruct (IH ((acc ++ [HighConfidence sid c]) ++ (InsightItem <$> l)))
        as [[-> ->]|[-> [e ->]]]; [left | right; split; [done | by eexists]].
      split; [done |]. by rewrite <- !app_assoc.
    + cbn [ebind andb].
      destruct (IH (acc ++ [HighConfidence sid c]))
        as [[-> ->]|[-> [e ->]]]; [left | right; split; [done | by eexists]].
      split; [done |]. simpl. by rewrite <- !app_assoc.
  - cbn [ebind andb].
    destruct (OrderedDict.get "recommendations" d) as [v|].
    + destruct (top2_sliceable v) as [[-> [l ->]]|[-> [e ->]]];
        [|right; split; [done | by eexists]].
      cbn [ebind andb].
      destruct (IH (acc ++ (InsightItem <$> l)))
        as [[-> ->]|[-> [e ->]]]; [left | right; split; [done | by eexists]].
      split; [done |]. simpl. by rewrite <- !app_assoc.
    + cbn [ebind andb]. simpl. apply IH.
Qed.

Lemma identify_risks_loop_spec items acc :
  (forallb risk_ok items.*2 = true ∧
   identify_risks_loop items acc = inr (acc ++ concat (risk_items <$> items.*2))) ∨
  (forallb risk_ok items.*2 = false ∧ ∃ e, identify_risks_loop items acc = inl e).
Proof.
  revert acc. induction items as [|[sid r] items IH]; intros acc.
  { left. simpl. by rewrite app_nil_r. }
  cbn [identify_risks_loop fmap list_fmap forallb snd concat].
  unfold risk_ok at 1 3, risk_items at 1.
  destruct (success r); [|simpl; apply IH].
  destruct (data r) as [| | | | | |d]; try (simpl; apply IH).
  unfold field_ok.
  destruct (OrderedDict.get "risk_factors" d) as [v|]; [|simpl; apply IH].
  destruct (top2_sliceable v) as [[-> [l ->]]|[-> [e ->]]];
    [|right; split; [done | by eexists]].
  cbn [ebind andb].
  destruct (IH (acc ++ l)) as [[-> ->]|[-> [e ->]]];
    [left | right; split; [done | by eexists]].
  split; [done |]. by rewrite <- !app_assoc.
Qed.

Lemma recommendations_loop_total results acc :
  forallb insight_ok results = true →
  ∃ recs, recommendations_loop results acc = inr recs.
Proof.
  revert acc. induction results as [|r results IH]; intros acc; simpl.
  { by eexists. }
  intros [Hr Hrest]%andb_true_iff. unfold insight_ok in Hr.
  destruct (success r); [|by apply IH].
  destruct (data r) as [| | | | | |d]; try by apply IH.
  apply andb_true_iff in Hr as [_ Hr]. unfold field_ok in Hr.
  destruct (OrderedDict.get "recommendations" d) as [v|]; [|by apply IH].
  destruct (top2_sliceable v) as [[_ [l ->]]|[Hf _]]; [|congruence].
  simpl. by apply IH.
Qed.

Lemma forallb_and {A} (f g : A → bool) (l : list A) :
  forallb (λ x, f x && g x) l = forallb f l && forallb g l.
Proof.
  induction l as [|x l IH]; simpl; [done |]. rewrite IH.
  destruct (f x), (g x), (forallb f l), (forallb g l); done.
Qed.

Lemma forallb_elem_of {A} (f : A → bool) (l : list A) :
  forallb f l = true ↔ ∀ x, x ∈ l → f x = true.
Proof.
  rewrite forallb_forall. split; intros H x Hx; apply H; by apply list_elem_of_In.
Qed.

Lemma summary_spec workflow_type sr context :
  (forallb payload_ok sr.*2 = true ∧
   _generate_workflow_summary workflow_type sr context =
     inr (SummaryOk (WorkflowType_value workflow_type)
            (length sr) (length (List.filter success sr.*2))
            (take 5 (concat (insight_items <$> sr)))
            (_identify_synergies sr)
            (take 5 (concat (risk_items <$> sr.*2) ++ cross_domain_risks)))) ∨
  (forallb payload_ok sr.*2 = false ∧
   ∃ e, _generate_workflow_summary workflow_type sr context = inl e).
Proof.
  assert (Hext : ∀ l, forallb payload_ok l = forallb (λ x, insight_ok x && risk_ok x) l).
  { induction l as [|x l IH]; simpl; [done |]. by rewrite payload_ok_split, IH. }
  rewrite Hext, forallb_and.
  unfold _generate_workflow_summary, _extract_key_insights, _identify_risks,
    OrderedDict.values.
  destruct (extract_insights_loop_spec sr []) as [[-> ->]|[-> [e ->]]];
    [|right; split; [done | by eexists]].
  cbn [ebind andb].
  destruct (identify_risks_loop_spec sr []) as [[-> ->]|[-> [e ->]]];
    [|right; split; [done | by eexists]].
  left. split; [done |]. reflexivity.
Qed.



(** X2: a workflow summary that was produced guarantees the
    recommendations: once [_generate_workflow_summary] has returned for
    some step results, [_generate_recommendations] cannot raise on
    them. *)
Theorem X2_summary_guards_recommendations
    (workflow_type : WorkflowType) (sr : odict TaskResult) (context : nat)
    (s : Summary) :
  _generate_workflow_summary workflow_type sr context = inr s →
  ∃ recs,
    _generate_recommendations workflow_type sr = inr recs ∧
    take 5 recs = generic_recommendations.
Proof.
  intros Hs.
  destruct (summary_spec workflow_type sr context) as [[Hok _]|[_ [e He]]];
    [|congruence].
  assert (forallb insight_ok sr.*2 = true) as Hins.
  { apply forallb_elem_of. intros tr Htr.
    rewrite forallb_elem_of in Hok. specialize (Hok tr Htr).
    rewrite payload_ok_split in Hok. by apply andb_true_iff in Hok as [? _]. }
  unfold _generate_recommendations, OrderedDict.values.
  destruct (recommendations_loop_total sr.*2 generic_recommendations Hins)
    as [recs Hrecs].
  rewrite Hrecs. simpl. eexists. split; [done |].
  apply recommendations_loop_spec in Hrecs as ->.
  rewrite take_take. by rewrite take_app_le by (simpl; lia).
Qed.

Lemma X2_summary_guards_recommendations_witness :
  ∃ s recs,
    _generate_workflow_summary HEALTHCARE_FACILITY
      [("a", Examples.stub_result (VDict [("recommendations", VStr "abc")]))] 0
      = inr s ∧
    _generate_recommendations HEALTHCARE_FACILITY
      [("a", Examples.stub_result (VDict [("recommendations", VStr "abc")]))]
      = inr recs.
Proof.
  eexists.
  edestruct (X2_summary_guards_recommendations HEALTHCARE_FACILITY
               [("a", Examples.stub_result (VDict [("recommendations", VStr "abc")]))]
               0) as (recs & Hrecs & _).
  - vm_compute. reflexivity.
  - exists recs. split; [vm_compute; reflexivity | exact Hrecs].
Defined.

Lemma insight_items_length item : length (insight_items item) ≤ 3.
Proof.
  unfold insight_items. destruct (success item.2); [|simpl; lia].
  destruct (data item.2); try (simpl; lia).
  rewrite length_app.
  assert (length (match OrderedDict.get "confidence" d with
                  | Some c => [HighConfidence item.1 c] | None => [] end) ≤ 1)
    by (destruct (OrderedDict.get "confidence" d); simpl; lia).
  assert (length (match OrderedDict.get "recommendations" d with
                  | Some v => InsightItem <$> (match top2 v with
                                               | inr l => l | inl _ => [] end)
                  | None => [] end) ≤ 2).
  { destruct (OrderedDict.get "recommendations" d) as [v|]; [|simpl; lia].
    rewrite length_fmap. destruct (top2 v) eqn:Hv; [simpl; lia |].
    by eapply top2_length. }
  lia.
Qed.

Lemma risk_items_length result : length (risk_items result) ≤ 2.
Proof.
  unfold risk_items. destruct (success result); [|simpl; lia].
  destruct (data result); try (simpl; lia).
  destruct (OrderedDict.get "risk_factors" d) as [v|]; [|simpl; lia].
  destruct (top2 v) eqn:Hv; [simpl; lia | by eapply top2_length].
Qed.

(** X3: the key insights are, step by step in the order of the results,
    the confidence line of a successful step followed by at most two of
    its recommendations, at most three entries per step, and the list is
    cut to five entries; failed steps contribute nothing. *)
Theorem X3_key_insights_contents
    (workflow_type : WorkflowType) (sr : odict TaskResult)
    (insights : list Insight) :
  _extract_key_insights workflow_type sr = inr insights →
  insights = take 5 (concat (insight_items <$> sr)) ∧
  length insights ≤ 5 ∧
  (∀ item, length (insight_items item) ≤ 3) ∧
  (∀ item, success item.2 = false → insight_items item = []).
Proof.
  unfold _extract_key_insights.
  destruct (extract_insights_loop_spec sr []) as [[_ ->]|[_ [e ->]]]; [|done].
  simpl. intros [= <-]. split_and!.
  - done.
  - rewrite length_take. lia.
  - apply insight_items_length.
  - intros item Hf. unfold insight_items. by rewrite Hf.
Qed.

Lemma X3_key_insights_contents_witness :
  _extract_key_insights REAL_ESTATE_DEVELOPMENT
    [("a", Examples.stub_result
             (VDict [("confidence", VFloat (85 # 100));
                     ("recommendations", VList [VStr "x"; VStr "y"; VStr "z"])]))]
  = inr [HighConfidence "a" (VFloat (85 # 100));
         InsightItem (VStr "x"); InsightItem (VStr "y")] ∧
  length [HighConfidence "a" (VFloat (85 # 100));
          InsightItem (VStr "x"); InsightItem (VStr "y")] ≤ 5.
Proof.
  split; [reflexivity |].
  exact (proj1 (proj2
    (X3_key_insights_contents REAL_ESTATE_DEVELOPMENT
       [("a", Examples.stub_result
                (VDict [("confidence", VFloat (85 # 100));
                        ("recommendations", VList [VStr "x"; VStr "y"; VStr "z"])]))]
       _ eq_refl))).
Defined.

(** X4: the reported risks are the first five of the steps' risks (at
    most two per successful step) followed by the three cross-domain
    risks.  So there are always between three and five of them, all
    three cross-domain risks are reported only while the steps supply at
    most two risks, and once the steps supply five none is. *)
Theorem X4_risks_contents (sr : odict TaskResult) (risks : list PyVal) :
  _identify_risks sr = inr risks →
  risks = take 5 (concat (risk_items <$> OrderedDict.values sr)
                  ++ cross_domain_risks) ∧
  3 ≤ length risks ≤ 5 ∧
  (∀ result, length (risk_items result) ≤ 2) ∧
  (length (concat (risk_items <$> OrderedDict.values sr)) ≤ 2 →
   risks = concat (risk_items <$> OrderedDict.values sr) ++ cross_domain_risks) ∧
  (5 ≤ length (concat (risk_items <$> OrderedDict.values sr)) →
   risks = take 5 (concat (risk_items <$> OrderedDict.values sr))).
Proof.
  unfold _identify_risks, OrderedDict.values.
  destruct (identify_risks_loop_spec sr []) as [[_ ->]|[_ [e ->]]]; [|done].
  simpl. intros [= <-]. fold cross_domain_risks.
  set (step_risks := concat (risk_items <$> sr.*2)).
  assert (Hc : length cross_domain_risks = 3) by done.
  split_and!.
  - done.
  - rewrite length_take, length_app, Hc. lia.
  - rewrite length_take, length_app, Hc. lia.
  - apply risk_items_length.
  - intros Hle. apply take_ge. rewrite length_app, Hc. lia.
  - intros Hge. by rewrite take_app_le.
Qed.

Lemma X4_risks_contents_witness :
  _identify_risks
    [("a", Examples.stub_result (VDict [("risk_factors", VList [VStr "r1"])]))]
  = inr (VStr "r1" :: cross_domain_risks) ∧
  3 ≤ length (VStr "r1" :: cross_domain_risks) ≤ 5.
Proof.
  split; [reflexivity |].
  exact (proj1 (proj2
    (X4_risks_contents
       [("a", Examples.stub_result (VDict [("risk_factors", VList [VStr "r1"])]))]
       _ eq_refl))).
Defined.

Lemma filter_length_all {A} (f : A → bool) (l : list A) :
  length (List.filter f l) ≤ length l ∧
  (length (List.filter f l) = length l ↔ forallb f l = true).
Proof.
  induction l as [|x l [IH1 IH2]]; simpl; [done |].
  destruct (f x); simpl; [|split; [lia | split; [lia | done]]].
  split; [lia |]. rewrite <- IH2. lia.
Qed.

(** X5: in a WorkflowResult returned on the normal path, the summary
    names the workflow type, counts every recorded step result
    ([total_steps]) and the successful ones among them
    ([successful_steps], never more than the total), and the result's
    [success] flag is set exactly when the two counts agree. *)
Theorem X5_summary_counts_match_success
    {World : Type} (registry : gmap string (Agent World))
    (get_definition : WorkflowType → list WorkflowStep)
    (fuel : nat) (workflow_type : WorkflowType) (context : nat)
    (m : Machine World) (r : WorkflowResult)
    (v : string) (total successful : nat) (insights : list Insight)
    (synergies : list string) (risks : list PyVal) :
  (execute_workflow_with registry get_definition fuel
     workflow_type context m).1 = Ok r →
  summary r = SummaryOk v total successful insights synergies risks →
  v = WorkflowType_value workflow_type ∧
  total = length (step_results r) ∧
  successful ≤ total ∧
  (wf_success r = true ↔ successful = total) ∧
  length synergies = 3.
Proof.
  destruct (execute_workflow_with_inv registry get_definition fuel
              workflow_type context m) as (-> & _).
  destruct ((_execute_workflow_steps registry fuel (get_definition workflow_type)
               context m).1) as [sr|e| |]; simpl; [| by intros [= <-] | done..].
  destruct (summary_spec workflow_type sr context) as [[_ Hs]|[_ [e Hs]]];
    rewrite Hs; [|by intros [= <-]].
  destruct (_generate_recommendations workflow_type sr) as [e|recs];
    [by intros [= <-] |].
  intros [= <-]. simpl. intros [= <- <- <- <- <- <-].
  destruct (filter_length_all success sr.*2) as [Hle Hiff].
  rewrite length_fmap in Hle, Hiff.
  split_and!; [done | done | done | | done].
  unfold OrderedDict.values. by rewrite <- Hiff.
Qed.

Lemma X5_summary_counts_match_success_witness :
  ∃ r insights synergies risks,
    (execute_workflow_with Examples.registry1 (λ _, Examples.diamond) 3
       BUSINESS_EXPANSION 0 Examples.machine0).1 = Ok r ∧
    summary r = SummaryOk "business_expansion" 3 3 insights synergies risks ∧
    (wf_success r = true ↔ 3 = 3).
Proof.
  do 4 eexists. split; [vm_compute; reflexivity |]. split; [reflexivity |].
  refine (proj1 (proj2 (proj2 (proj2
    (X5_summary_counts_match_success Examples.registry1 (λ _, Examples.diamond) 3
       BUSINESS_EXPANSION 0 Examples.machine0 _ _ _ _ _ _ _ _ _))))).
  - vm_compute. reflexivity.
  - reflexivity.
Defined.

(** X6: [execute_workflow] appends to the workflow history exactly the
    results it returns on the normal path; a call that ends in the
    handler, is suspended or does not come back leaves the history as it
    was, so the history never holds a failure result of the handler. *)
Theorem X6_history_records_normal_results
    {World : Type} (registry : gmap string (Agent World))
    (get_definition : WorkflowType → list WorkflowStep)
    (fuel : nat) (workflow_type : WorkflowType) (context : nat)
    (m : Machine World) :
  context < length (heap m) →
  workflow_history (execute_workflow_with registry get_definition fuel
                      workflow_type context m).2
  = match (execute_workflow_with registry get_definition fuel
             workflow_type context m).1 with
    | Ok r => if is_error_summary (summary r) then workflow_history m
              else workflow_history m ++ [r]
    | _ => workflow_history m
    end.
Proof.
  intros Hctx.
  unfold execute_workflow_with, execute_workflow_body, bind.
  destruct (_execute_workflow_steps registry fuel (get_definition workflow_type)
              context m) as [o m1] eqn:Hrun.
  apply execute_steps_safe in Hrun as (ncalls & _ & Hhist & _); [|done].
  destruct o as [sr|e| |]; simpl; [| done..].
  unfold lift.
  destruct (_generate_workflow_summary workflow_type sr context) as [e|s] eqn:Hs;
    simpl; [done |].
  destruct (_generate_recommendations workflow_type sr) as [e|recs]; simpl; [done |].
  by rewrite (summary_ok_not_error _ _ _ _ Hs), Hhist.
Qed.

Lemma X6_history_records_normal_results_witness :
  0 < length (heap Examples.machine0) ∧
  length (workflow_history
            (execute_workflow_with Examples.registry1 (λ _, Examples.diamond) 3
               BUSINESS_EXPANSION 0 Examples.machine0).2) = 1.
Proof.
  split; [simpl; lia |].
  rewrite (X6_history_records_normal_results Examples.registry1
             (λ _, Examples.diamond) 3 BUSINESS_EXPANSION 0 Examples.machine0)
    by (simpl; lia).
  vm_compute. reflexivity.
Defined.

(** ** The trace of a run *)

Lemma tasks_from_steps {World : Type} (registry : gmap string (Agent World))
    base ready :
  (λ t, co_step t.2) <$> tasks_from registry base ready
  = List.filter (has_agent registry) ready.
Proof.
  revert base. induction ready as [|s rest IH]; intros base; simpl; [done |].
  unfold get_agent, has_agent. destruct (registry !! agent_name s) as [a|] eqn:Ha.
  - rewrite bool_decide_eq_true_2 by eauto. simpl. f_equal. apply IH.
  - rewrite bool_decide_eq_false_2 by (by intros [? ?]). apply IH.
Qed.

Lemma NoDup_fmap_filter {A B} (f : A → B) (p : A → bool) (l : list A) :
  NoDup (f <$> l) → NoDup (f <$> List.filter p l).
Proof.
  induction l as [|x l IH]; simpl; [done |].
  rewrite NoDup_cons. intros [Hx Hnd]. destruct (p x); [|by apply IH].
  simpl. apply NoDup_cons. split; [|by apply IH].
  intros (y & Hy & Hin)%list_elem_of_fmap. apply Hx.
  apply list_elem_of_fmap. exists y. split; [done |].
  apply list_elem_of_In in Hin. apply filter_In in Hin as [Hin _].
  by apply list_elem_of_In.
Qed.

Lemma await_all_trace {World : Type} (tasks : list (string * Coroutine World))
    sr cs (m : Machine World) out m' :
  await_all tasks sr cs m = (out, m') →
  ∃ ncalls,
    calls m' = calls m ++ ncalls ∧
    call_step <$> ncalls `prefix_of` ((λ t, co_step t.2) <$> tasks) ∧
    ∀ sr' cs', out = Ok (sr', cs') →
      call_step <$> ncalls = (λ t, co_step t.2) <$> tasks ∧
      (NoDup tasks.*1 →
       (∀ k, k ∈ tasks.*1 → k ∉ OrderedDict.keys sr) →
       OrderedDict.keys sr' = OrderedDict.keys sr ++ tasks.*1).
Proof.
  revert sr cs m. induction tasks as [|[sid co] tasks IH]; intros sr cs m Hrun.
  - simpl in Hrun. injection Hrun as <- <-. exists []. rewrite app_nil_r.
    split_and!; [done | done |]. intros sr' cs' [= <- <-]. split; [done |].
    intros _ _. simpl. by rewrite app_nil_r.
  - cbn [await_all] in Hrun. unfold bind, await in Hrun.
    destruct (execute_task (co_agent co) (co_task co)
                (default ∅ (heap m !! co_context co)) (world m))
      as [[o c'] w'] eqn:Hexec.
    set (call := mkCall (co_step co) (co_context co)
                   (default ∅ (heap m !! co_context co)) sr) in Hrun.
    destruct o as [r| |].
    2,3: injection Hrun as <- <-; exists [call]; cbn [calls];
         split_and!; [done | apply prefix_cons, prefix_nil | done].
    apply IH in Hrun as (ncalls & Hcalls & Hpre & Hok).
    cbn [calls] in Hcalls. exists (call :: ncalls). split_and!.
    + by rewrite Hcalls, <- app_assoc.
    + rewrite !fmap_cons. by apply prefix_cons.
    + intros sr' cs' Heq. destruct (Hok sr' cs' Heq) as [Hsteps Hkeys].
      split; [rewrite !fmap_cons; by f_equal |].
      rewrite fmap_cons. intros [Hsid Hnd]%NoDup_cons Hfresh.
      rewrite Hkeys; [| done |].
      * rewrite od_keys_set, decide_False by (apply Hfresh; by left).
        by rewrite <- app_assoc.
      * intros k Hk [->|Hin]%od_keys_set_elem; [done |].
        apply (Hfresh k); [by right | done].
Qed.

Section Trace.
Context {World : Type}.
Variable registry : gmap string (Agent World).
Variable steps : list WorkflowStep.
Implicit Types (m : Machine World) (sr : odict TaskResult) (cs : gset string).

Hypothesis ids_unique : NoDup (step_id <$> steps).

(** A property of the completed set that every wave keeps. *)
Variable I : gset string → Prop.
Hypothesis I_wave :
  ∀ cs, I cs →
    I (list_to_set (step_id <$> List.filter (has_agent registry)
                                  (ready_steps steps cs)) ∪ cs).

Lemma run_wave_trace context sr cs m out m' :
  context < length (heap m) →
  (∀ d, d ∈ cs ↔ d ∈ OrderedDict.keys sr) →
  run_wave registry (ready_steps steps cs) context sr cs m = (out, m') →
  ∃ ncalls,
    calls m' = calls m ++ ncalls ∧
    call_step <$> ncalls `prefix_of`
      List.filter (has_agent registry) (ready_steps steps cs) ∧
    ∀ sr' cs', out = Ok (sr', cs') →
      call_step <$> ncalls
        = List.filter (has_agent registry) (ready_steps steps cs) ∧
      OrderedDict.keys sr'
        = OrderedDict.keys sr ++ (step_id <$> (call_step <$> ncalls)).
Proof.
  intros Hctx Hinv Hrun. unfold run_wave, bind in Hrun.
  rewrite create_tasks_eq in Hrun by done.
  apply await_all_trace in Hrun as (ncalls & Hcalls & Hpre & Hok).
  rewrite tasks_from_steps in Hpre. rewrite tasks_from_steps in Hok.
  exists ncalls. split_and!; [done | done |].
  intros sr' cs' Heq. destruct (Hok sr' cs' Heq) as [Hsteps Hkeys].
  split; [done |]. rewrite Hsteps, Hkeys; rewrite tasks_from_ids.
  - done.
  - apply NoDup_fmap_filter. unfold ready_steps. by apply NoDup_fmap_filter.
  - intros k (s & -> & Hs)%list_elem_of_fmap Hk.
    apply list_elem_of_In, filter_In in Hs as [Hs _].
    apply list_elem_of_In, ready_steps_spec in Hs as (_ & Hn & _).
    by apply Hn, Hinv.
Qed.

Lemma wave_loop_trace fuel context sr cs m out m' :
  context < length (heap m) →
  (∀ d, d ∈ cs ↔ d ∈ OrderedDict.keys sr) →
  (∀ d, d ∈ cs → d ∈ step_id <$> steps) →
  I cs →
  wave_loop registry fuel steps context sr cs m = (out, m') →
  ∃ ncalls,
    calls m' = calls m ++ ncalls ∧
    NoDup (step_id <$> (call_step <$> ncalls)) ∧
    (∀ c, c ∈ ncalls → step_id (call_step c) ∉ cs) ∧
    (∀ c, c ∈ ncalls → ∃ cs', I cs' ∧ call_step c ∈ ready_steps steps cs') ∧
    ∀ srf, out = Ok srf →
      OrderedDict.keys srf
        = OrderedDict.keys sr ++ (step_id <$> (call_step <$> ncalls)).
Proof.
  revert sr cs m.
  induction fuel as [|fuel IH]; intros sr cs m Hctx Hinv Hsub HI Hrun.
  { injection Hrun as <- <-. exists []. rewrite app_nil_r.
    split_and!; [done | constructor | by intros c ?%elem_of_nil
                | by intros c ?%elem_of_nil | done]. }
  assert (Hret : ret (World := World) sr m = (out, m') →
    ∃ ncalls,
      calls m' = calls m ++ ncalls ∧
      NoDup (step_id <$> (call_step <$> ncalls)) ∧
      (∀ c, c ∈ ncalls → step_id (call_step c) ∉ cs) ∧
      (∀ c, c ∈ ncalls → ∃ cs', I cs' ∧ call_step c ∈ ready_steps steps cs') ∧
      ∀ srf, out = Ok srf →
        OrderedDict.keys srf
          = OrderedDict.keys sr ++ (step_id <$> (call_step <$> ncalls))).
  { intros [= <- <-]. exists []. rewrite app_nil_r.
    split_and!; [done | constructor | by intros c ?%elem_of_nil
                | by intros c ?%elem_of_nil |].
    intros srf [= <-]. by rewrite app_nil_r. }
  cbn [wave_loop] in Hrun.
  destruct (size cs <? length steps); [|by apply Hret].
  destruct (ready_steps steps cs) as [|s0 rest] eqn:Hready; [by apply Hret |].
  clear Hret. unfold bind in Hrun.
  destruct (run_wave registry (s0 :: rest) context sr cs m) as [o m1] eqn:Hwave.
  pose proof Hwave as Hspec.
  apply (run_wave_spec registry steps) in Hspec
    as (nc & _ & _ & Hlen1 & _ & _ & _ & Hok1);
    [| by rewrite Hready | done..].
  rewrite <- Hready in Hwave.
  apply run_wave_trace in Hwave as (ncalls1 & Hcalls1 & Hpre1 & Htr1); [| done..].
  assert (Hrdy1 : ∀ c, c ∈ ncalls1 → call_step c ∈ ready_steps steps cs).
  { intros c Hc. destruct Hpre1 as [k Hk].
    assert (call_step c ∈ List.filter (has_agent registry) (ready_steps steps cs))
      as Hin.
    { rewrite Hk. apply elem_of_app. left. apply list_elem_of_fmap. eauto. }
    apply list_elem_of_In, filter_In in Hin as [Hin _].
    by apply list_elem_of_In. }
  assert (Hids1 : ∀ c, c ∈ ncalls1 → step_id (call_step c) ∉ cs).
  { intros c Hc. by apply Hrdy1, ready_steps_spec in Hc as (_ & ? & _). }
  assert (Hnd1 : NoDup (step_id <$> (call_step <$> ncalls1))).
  { destruct Hpre1 as [k Hk].
    assert (NoDup (step_id <$> List.filter (has_agent registry)
                                 (ready_steps steps cs))) as Hnd
      by (apply NoDup_fmap_filter; unfold ready_steps; by apply NoDup_fmap_filter).
    rewrite Hk, fmap_app in Hnd. by apply NoDup_app in Hnd as [? _]. }
  destruct o as [[sr1 cs1]| | |].
  2-4: injection Hrun as <- <-; exists ncalls1; split_and!; [done..| | done];
       intros c Hc; exists cs; split; [done | by apply Hrdy1].
  destruct (Hok1 sr1 cs1 eq_refl) as (Hcs1 & Hinv1 & Hsub1 & _).
  destruct (Htr1 sr1 cs1 eq_refl) as [Hsteps1 Hkeys1].
  assert (HI1 : I cs1).
  { rewrite Hcs1, <- Hready. by apply I_wave. }
  apply IH in Hrun as (ncalls2 & Hcalls2 & Hnd2 & Hids2 & Hrdy2 & Hok2);
    [| lia | done | done | done].
  exists (ncalls1 ++ ncalls2). split_and!.
  - by rewrite Hcalls2, Hcalls1, <- app_assoc.
  - rewrite !fmap_app. apply NoDup_app. split_and!; [done | | done].
    intros k Hk1 (c & -> & Hc)%list_elem_of_fmap.
    apply list_elem_of_fmap in Hc as (c2 & -> & Hc2).
    apply (Hids2 c2 Hc2). apply Hinv1. rewrite Hkeys1.
    apply elem_of_app. by right.
  - intros c [Hc|Hc]%elem_of_app; [by apply Hids1 |].
    intros Hin. apply (Hids2 c Hc). rewrite Hcs1. set_solver.
  - intros c [Hc|Hc]%elem_of_app; [|by apply Hrdy2].
    exists cs. split; [done | by apply Hrdy1].
  - intros srf Heq. rewrite (Hok2 srf Heq), Hkeys1, !fmap_app.
    by rewrite <- app_assoc.
Qed.
End Trace.

Lemma outcome_of_normal workflow_type context sr r :
  outcome_of workflow_type context (Ok sr) = Ok r →
  is_error_summary (summary r) = false →
  step_results r = sr.
Proof.
  simpl.
  destruct (_generate_workflow_summary workflow_type sr context) as [e|s];
    [by intros [= <-] |].
  destruct (_generate_recommendations workflow_type sr) as [e|recs];
    by intros [= <-].
Qed.

(** The trace of [execute_workflow]: the executor bodies it runs, and the
    keys of the results it returns. *)
Lemma execute_workflow_trace {World : Type}
    (registry : gmap string (Agent World))
    (get_definition : WorkflowType → list WorkflowStep)
    (I : gset string → Prop)
    (fuel : nat) (workflow_type : WorkflowType) (context : nat)
    (m : Machine World) :
  NoDup (step_id <$> get_definition workflow_type) →
  (∀ cs, I cs →
     I (list_to_set (step_id <$> List.filter (has_agent registry)
                       (ready_steps (get_definition workflow_type) cs)) ∪ cs)) →
  I ∅ →
  context < length (heap m) →
  ∃ ncalls,
    calls (execute_workflow_with registry get_definition fuel
             workflow_type context m).2 = calls m ++ ncalls ∧
    NoDup (step_id <$> (call_step <$> ncalls)) ∧
    (∀ c, c ∈ ncalls →
       ∃ cs, I cs ∧ call_step c ∈ ready_steps (get_definition workflow_type) cs) ∧
    ∀ r, (execute_workflow_with registry get_definition fuel
            workflow_type context m).1 = Ok r →
      is_error_summary (summary r) = false →
      OrderedDict.keys (step_results r) = step_id <$> (call_step <$> ncalls).
Proof.
  intros Hnd HIw HI0 Hctx.
  destruct (execute_workflow_with_inv registry get_definition fuel
              workflow_type context m) as (Hout & _ & _ & Hcalls).
  destruct (_execute_workflow_steps registry fuel (get_definition workflow_type)
              context m) as [o m1] eqn:Hrun.
  simpl in Hout, Hcalls.
  apply (wave_loop_trace registry _ Hnd I HIw) in Hrun
    as (ncalls & Hc & Hnd' & _ & Hrdy & Hkeys);
    [| done | set_solver | set_solver | done].
  exists ncalls. split_and!; [by rewrite Hcalls | done | done |].
  intros r Hr Hnorm. rewrite Hout in Hr.
  destruct o as [sr|e| |]; try done.
  - rewrite (outcome_of_normal _ _ _ _ Hr Hnorm). by apply Hkeys.
  - simpl in Hr. injection Hr as <-. done.
Qed.

Lemma diamond_ids_unique : NoDup (step_id <$> Examples.diamond).
Proof. apply (bool_decide_unpack _). vm_compute. exact Logic.I. Qed.

(** X7: when the step ids of the workflow definition are distinct, no
    step has its executor invoked twice during one call of
    [execute_workflow], however the call ends (normally, in the handler,
    suspended, or still looping). *)
Theorem X7_no_step_invoked_twice
    {World : Type} (registry : gmap string (Agent World))
    (get_definition : WorkflowType → list WorkflowStep)
    (fuel : nat) (workflow_type : WorkflowType) (context : nat)
    (m : Machine World) :
  NoDup (step_id <$> get_definition workflow_type) →
  context < length (heap m) →
  ∃ ncalls,
    calls (execute_workflow_with registry get_definition fuel
             workflow_type context m).2 = calls m ++ ncalls ∧
    NoDup (step_id <$> (call_step <$> ncalls)) ∧
    NoDup (call_step <$> ncalls).
Proof.
  intros Hnd Hctx.
  destruct (execute_workflow_trace registry get_definition (λ _, True)
              fuel workflow_type context m Hnd) as (ncalls & Hc & Hnd' & _);
    [done.. |].
  exists ncalls. split_and!; [done | done |].
  by apply (NoDup_fmap_1 step_id).
Qed.

Lemma X7_no_step_invoked_twice_witness :
  NoDup (step_id <$> Examples.diamond) ∧
  0 < length (heap Examples.machine0) ∧
  ∃ ncalls,
    calls (execute_workflow_with Examples.registry1 (λ _, Examples.diamond) 4
             BUSINESS_EXPANSION 0 Examples.machine0).2
      = calls Examples.machine0 ++ ncalls ∧
    NoDup (step_id <$> (call_step <$> ncalls)) ∧
    NoDup (call_step <$> ncalls).
Proof.
  assert (Hnd : NoDup (step_id <$> Examples.diamond)) by exact diamond_ids_unique.
  assert (Hctx : 0 < length (heap Examples.machine0)) by (simpl; lia).
  split; [exact Hnd |]. split; [exact Hctx |].
  exact (X7_no_step_invoked_twice Examples.registry1 (λ _, Examples.diamond) 4
           BUSINESS_EXPANSION 0 Examples.machine0 Hnd Hctx).
Defined.

(** X8: when the step ids of the definition are distinct and
    [execute_workflow] returns on the normal path, the keys of
    [step_results], in dictionary order, are the ids of the steps whose
    executor was invoked, in order of invocation: one result per invoked
    step and no result for any other step. *)
Theorem X8_results_follow_invocation_order
    {World : Type} (registry : gmap string (Agent World))
    (get_definition : WorkflowType → list WorkflowStep)
    (fuel : nat) (workflow_type : WorkflowType) (context : nat)
    (m : Machine World) (r : WorkflowResult) :
  NoDup (step_id <$> get_definition workflow_type) →
  context < length (heap m) →
  (execute_workflow_with registry get_definition fuel
     workflow_type context m).1 = Ok r →
  is_error_summary (summary r) = false →
  ∃ ncalls,
    calls (execute_workflow_with registry get_definition fuel
             workflow_type context m).2 = calls m ++ ncalls ∧
    OrderedDict.keys (step_results r) = step_id <$> (call_step <$> ncalls) ∧
    length (step_results r) = length ncalls.
Proof.
  intros Hnd Hctx Hr Hnorm.
  destruct (execute_workflow_trace registry get_definition (λ _, True)
              fuel workflow_type context m Hnd) as (ncalls & Hc & _ & _ & Hkeys);
    [done.. |].
  exists ncalls. specialize (Hkeys r Hr Hnorm). split_and!; [done | done |].
  apply (f_equal length) in Hkeys. unfold OrderedDict.keys in Hkeys.
  by rewrite !length_fmap in Hkeys.
Qed.

Lemma X8_results_follow_invocation_order_witness :
  NoDup (step_id <$> Examples.diamond) ∧
  0 < length (heap Examples.machine0) ∧
  ∃ r ncalls,
    (execute_workflow_with Examples.registry1 (λ _, Examples.diamond) 4
       BUSINESS_EXPANSION 0 Examples.machine0).1 = Ok r ∧
    is_error_summary (summary r) = false ∧
    calls (execute_workflow_with Examples.registry1 (λ _, Examples.diamond) 4
             BUSINESS_EXPANSION 0 Examples.machine0).2
      = calls Examples.machine0 ++ ncalls ∧
    OrderedDict.keys (step_results r) = step_id <$> (call_step <$> ncalls) ∧
    length (step_results r) = length ncalls.
Proof.
  assert (Hnd : NoDup (step_id <$> Examples.diamond)) by exact diamond_ids_unique.
  assert (Hctx : 0 < length (heap Examples.machine0)) by (simpl; lia).
  split; [exact Hnd |]. split; [exact Hctx |].
  destruct (execute_workflow_with Examples.registry1 (λ _, Examples.diamond) 4
              BUSINESS_EXPANSION 0 Examples.machine0).1 as [r| | |] eqn:Hr;
    [| by vm_compute in Hr..].
  assert (Hnorm : is_error_summary (summary r) = false).
  { vm_compute in Hr. by injection Hr as <-. }
  destruct (X8_results_follow_invocation_order Examples.registry1
              (λ _, Examples.diamond) 4 BUSINESS_EXPANSION 0 Examples.machine0 r
              Hnd Hctx Hr Hnorm) as (ncalls & H1 & H2 & H3).
  by exists r, ncalls.
Defined.

(** ** Definitions without a root, and cycles *)

Lemma ready_steps_no_root steps :
  (∀ s, s ∈ steps → dependencies s ≠ []) →
  ready_steps steps ∅ = [].
Proof.
  intros Hdeps. unfold ready_steps.
  induction steps as [|s steps IH]; [done |]. simpl.
  assert (is_ready ∅ s = false) as ->.
  { unfold is_ready. apply andb_false_intro2.
    specialize (Hdeps s (list_elem_of_here _ _)).
    destruct (dependencies s) as [|d ds]; [done |]. simpl.
    by rewrite bool_decide_eq_false_2 by set_solver. }
  apply IH. intros s' Hs'. apply Hdeps. by right.
Qed.

(** X9: a workflow definition in which every step declares at least one
    dependency (for instance one whose steps all lie on a dependency
    cycle) has no step to start from: [execute_workflow] invokes no
    executor, raises nothing, and reports success with an empty
    [step_results], a regular summary counting zero steps and the five
    generic recommendations. *)
Theorem X9_no_root_step_reports_success
    {World : Type} (registry : gmap string (Agent World))
    (get_definition : WorkflowType → list WorkflowStep)
    (fuel : nat) (workflow_type : WorkflowType) (context : nat)
    (m : Machine World) :
  (∀ s, s ∈ get_definition workflow_type → dependencies s ≠ []) →
  ∃ r insights synergies risks,
    (execute_workflow_with registry get_definition (S fuel)
       workflow_type context m).1 = Ok r ∧
    wf_success r = true ∧
    step_results r = [] ∧
    summary r = SummaryOk (WorkflowType_value workflow_type) 0 0
                  insights synergies risks ∧
    recommendations r = generic_recommendations ∧
    calls (execute_workflow_with registry get_definition (S fuel)
             workflow_type context m).2 = calls m ∧
    heap (execute_workflow_with registry get_definition (S fuel)
            workflow_type context m).2 = heap m.
Proof.
  intros Hdeps.
  unfold execute_workflow_with, execute_workflow_body, _execute_workflow_steps,
    bind.
  cbn [wave_loop]. rewrite (ready_steps_no_root _ Hdeps).
  assert (Hloop : (if (size (∅ : gset string) <? length (get_definition workflow_type))%nat
                   then ret (World := World) ([] : odict TaskResult)
                   else ret []) m = (Ok [], m)) by (by destruct (_ <? _)%nat).
  rewrite Hloop. simpl. by eexists _, _, _, _.
Qed.

Lemma X9_no_root_step_reports_success_witness :
  (∀ s, s ∈ Cycles.two_cycle → dependencies s ≠ []) ∧
  ∃ r, (execute_workflow_with Examples.registry1 (λ _, Cycles.two_cycle) 1
          BUSINESS_EXPANSION 0 Examples.machine0).1 = Ok r ∧
       wf_success r = true ∧ step_results r = [].
Proof.
  assert (H : ∀ s, s ∈ Cycles.two_cycle → dependencies s ≠ []).
  { intros s Hs.
    repeat (apply elem_of_cons in Hs as [->|Hs]); [done | done |].
    by apply elem_of_nil in Hs. }
  split; [exact H |].
  destruct (X9_no_root_step_reports_success Examples.registry1
              (λ _, Cycles.two_cycle) 0 BUSINESS_EXPANSION 0 Examples.machine0 H)
    as (r & ? & ? & ? & Hr & Hs & Hsr & _).
  exists r. by split_and!.
Defined.




(** ** The hints of a step *)

Section Hints.
Context {World : Type}.
Variable registry : gmap string (Agent World).
Implicit Types (m : Machine World) (sr : odict TaskResult) (cs : gset string).

Lemma same_run_refl m : same_run m m.
Proof.
  split_and!; [done..|]. apply Forall2_same_length_lookup_2; [done |].
  intros i c c' Hc Hc'. by simplify_eq.
Qed.

Lemma is_ready_same cs s s' :
  same_schedule s s' → is_ready cs s = is_ready cs s'.
Proof. intros (Hid & _ & _ & Hdeps). unfold is_ready. by rewrite Hid, Hdeps. Qed.

Lemma ready_steps_same steps steps' cs :
  Forall2 same_schedule steps steps' →
  Forall2 same_schedule (ready_steps steps cs) (ready_steps steps' cs).
Proof.
  unfold ready_steps. induction 1 as [|s s' steps steps' Hs _ IH]; simpl; [done |].
  rewrite (is_ready_same cs s s' Hs). destruct (is_ready cs s'); [|done].
  by constructor.
Qed.

Lemma create_tasks_same ready ready' context sr m m' :
  Forall2 same_schedule ready ready' →
  same_run m m' →
  ∃ tasks tasks' m1 m1',
    create_tasks registry ready context sr m = (Ok tasks, m1) ∧
    create_tasks registry ready' context sr m' = (Ok tasks', m1') ∧
    Forall2 same_task tasks tasks' ∧ same_run m1 m1'.
Proof.
  intros Hready. revert m m'.
  induction Hready as [|s s' ready ready' Hs _ IH]; intros m m' Hm; simpl.
  { by eexists [], [], m, m'. }
  destruct Hs as (Hid & Hag & Htask & Hdeps). rewrite <- Hag.
  destruct (get_agent registry (agent_name s)) as [agent|]; [|by apply IH].
  unfold bind at 1 3. unfold _enhance_context, bind, dict_copy, dict_update, ret.
  cbn [heap world calls workflow_history].
  destruct Hm as (Hh & Hw & Hhist & Hcalls).
  rewrite <- Hh, <- Hw, <- Hhist, <- Hdeps.
  match goal with
  | |- context [create_tasks registry ready context sr ?a] => set (ma := a)
  end.
  match goal with
  | |- context [create_tasks registry ready' context sr ?a] => set (mb := a)
  end.
  destruct (IH ma mb) as (tasks & tasks' & m1 & m1' & -> & -> & Htasks & Hm1).
  { by split_and!. }
  eexists _, _, m1, m1'. split_and!; [done | done | | done].
  constructor; [|done]. by split_and!.
Qed.

Lemma await_all_same (tasks tasks' : list (string * Coroutine World)) sr cs m m' :
  Forall2 same_task tasks tasks' →
  same_run m m' →
  (await_all tasks sr cs m).1 = (await_all tasks' sr cs m').1 ∧
  same_run (await_all tasks sr cs m).2 (await_all tasks' sr cs m').2.
Proof.
  intros Htasks. revert sr cs m m'.
  induction Htasks as [|[sid co] [sid' co'] tasks tasks' Ht _ IH];
    intros sr cs m m' Hm; simpl; [done |].
  destruct Ht as (Hsid & Hag & Htask & Hctx & Hstep). simpl in *. subst sid'.
  destruct Hm as (Hh & Hw & Hhist & Hcalls).
  unfold bind, await. rewrite <- Hag, <- Htask, <- Hctx, <- Hh, <- Hw, <- Hhist.
  destruct (execute_task (co_agent co) (co_task co)
              (default ∅ (heap m !! co_context co)) (world m))
    as [[out c'] w'].
  assert (Hsame : same_run
    (mkMachine (<[co_context co := c']> (heap m)) w'
       (calls m ++ [mkCall (co_step co) (co_context co)
                      (default ∅ (heap m !! co_context co)) sr])
       (workflow_history m))
    (mkMachine (<[co_context co := c']> (heap m)) w'
       (calls m' ++ [mkCall (co_step co') (co_context co)
                       (default ∅ (heap m !! co_context co)) sr])
       (workflow_history m))).
  { split_and!; [done..|]. apply Forall2_app; [done |].
    constructor; [|constructor]. by split_and!. }
  destruct out as [r|e|]; [by apply IH | done | done].
Qed.

Lemma wave_loop_same fuel steps steps' context sr cs m m' :
  Forall2 same_schedule steps steps' →
  same_run m m' →
  (wave_loop registry fuel steps context sr cs m).1
    = (wave_loop registry fuel steps' context sr cs m').1 ∧
  same_run (wave_loop registry fuel steps context sr cs m).2
           (wave_loop registry fuel steps' context sr cs m').2.
Proof.
  intros Hsteps. revert sr cs m m'.
  induction fuel as [|fuel IH]; intros sr cs m m' Hm; [done |].
  cbn [wave_loop]. rewrite <- (Forall2_length _ _ _ Hsteps).
  destruct (size cs <? length steps)%nat; [|done].
  pose proof (ready_steps_same steps steps' cs Hsteps) as Hready.
  destruct Hready as [|s s' ready ready' Hs Hrest]; [done |].
  unfold bind, run_wave, bind.
  destruct (create_tasks_same (s :: ready) (s' :: ready') context sr m m')
    as (tasks & tasks' & m1 & m1' & -> & -> & Htasks & Hm1);
    [by constructor | done |].
  destruct (await_all_same tasks tasks' sr cs m1 m1' Htasks Hm1) as [Ho Hm2].
  destruct (await_all tasks sr cs m1) as [o m2].
  destruct (await_all tasks' sr cs m1') as [o' m2'].
  simpl in Ho, Hm2. subst o'.
  destruct o as [[sr1 cs1]|e| |]; [by apply IH | done..].
Qed.
End Hints.

(** X11: [expected_duration] and [priority] play no part in
    [execute_workflow]: two definitions whose steps agree, position by
    position, on id, executor name, task description and dependencies
    give the same outcome, the same dict objects, the same executor
    state and the same history, and invoke the executors in the same
    order with the same contexts. *)
Theorem X11_hints_do_not_affect_execution
    {World : Type} (registry : gmap string (Agent World))
    (get_definition get_definition' : WorkflowType → list WorkflowStep)
    (fuel : nat) (workflow_type : WorkflowType) (context : nat)
    (m : Machine World) :
  Forall2 same_schedule (get_definition workflow_type)
                        (get_definition' workflow_type) →
  (execute_workflow_with registry get_definition fuel workflow_type context m).1
    = (execute_workflow_with registry get_definition' fuel workflow_type context m).1 ∧
  same_run
    (execute_workflow_with registry get_definition fuel workflow_type context m).2
    (execute_workflow_with registry get_definition' fuel workflow_type context m).2.
Proof.
  intros Hsteps.
  destruct (wave_loop_same registry fuel _ _ context [] ∅ m m Hsteps
              (same_run_refl m)) as [Ho Hm].
  unfold execute_workflow_with, execute_workflow_body, _execute_workflow_steps,
    bind.
  destruct (wave_loop registry fuel (get_definition workflow_type) context [] ∅ m)
    as [o m1].
  destruct (wave_loop registry fuel (get_definition' workflow_type) context [] ∅ m)
    as [o' m1'].
  simpl in Ho, Hm. subst o'.
  destruct o as [sr|e| |]; [| done..].
  unfold lift.
  destruct (_generate_workflow_summary workflow_type sr context) as [e|s];
    [done |].
  destruct (_generate_recommendations workflow_type sr) as [e|recs]; [done |].
  simpl. split; [done |].
  destruct Hm as (Hh & Hw & Hhist & Hcalls).
  split_and!; simpl; [done | done | by rewrite Hhist | done].
Qed.

Lemma X11_hints_do_not_affect_execution_witness :
  Forall2 same_schedule Examples.diamond diamond_hinted ∧
  (execute_workflow_with Examples.registry1 (λ _, Examples.diamond) 4
     BUSINESS_EXPANSION 0 Examples.machine0).1
  = (execute_workflow_with Examples.registry1 (λ _, diamond_hinted) 4
       BUSINESS_EXPANSION 0 Examples.machine0).1.
Proof.
  assert (H : Forall2 same_schedule Examples.diamond diamond_hinted).
  { repeat constructor. }
  split; [exact H |].
  exact (proj1 (X11_hints_do_not_affect_execution Examples.registry1
                  (λ _, Examples.diamond) (λ _, diamond_hinted) 4
                  BUSINESS_EXPANSION 0 Examples.machine0 H)).
Defined.

(** ** The agent registry *)

Section RegistryFacts.
Context {World : Type}.
Implicit Types (self : AgentRegistry.t World) (agent : UrbanZonesAgent World).
Implicit Types (agents : list (UrbanZonesAgent World)).

Lemma register_all_snoc self agents agent :
  AgentRegistry.register_all self (agents ++ [agent])
  = AgentRegistry.register_agent (AgentRegistry.register_all self agents) agent.
Proof. unfold AgentRegistry.register_all. by rewrite foldl_app. Qed.

Lemma named_snoc n agents agent :
  named n (agents ++ [agent])
  = named n agents ++ (if decide (name (executor agent) = n) then [agent] else []).
Proof.
  unfold named. rewrite List.filter_app. simpl.
  by destruct (decide (name (executor agent) = n));
    [rewrite bool_decide_eq_true_2 | rewrite bool_decide_eq_false_2].
Qed.

Lemma of_domain_snoc d agents agent :
  of_domain d (agents ++ [agent])
  = of_domain d agents ++ (if decide (d = domain agent) then [agent] else []).
Proof.
  unfold of_domain. rewrite List.filter_app. simpl.
  destruct (decide (d = domain agent)) as [->|Hne];
    [by rewrite bool_decide_eq_true_2 | by rewrite bool_decide_eq_false_2].
Qed.

Lemma get_agent_register_all self agents n :
  AgentRegistry.get_agent (AgentRegistry.register_all self agents) n
  = match last (named n agents) with
    | Some agent => Some agent
    | None => AgentRegistry.get_agent self n
    end.
Proof.
  induction agents as [|agent agents IH] using rev_ind; [done |].
  rewrite register_all_snoc, named_snoc.
  unfold AgentRegistry.get_agent, AgentRegistry.register_agent. simpl.
  destruct (decide (name (executor agent) = n)) as [<-|Hne].
  - by rewrite od_get_set_eq, last_snoc.
  - rewrite od_get_set_ne by done. by rewrite app_nil_r.
Qed.

Lemma domain_agents_register_all self agents d :
  AgentRegistry.get_agents_by_domain (AgentRegistry.register_all self agents) d
  = AgentRegistry.get_agents_by_domain self d ++ of_domain d agents.
Proof.
  induction agents as [|agent agents IH] using rev_ind.
  { by rewrite app_nil_r. }
  rewrite register_all_snoc, of_domain_snoc.
  unfold AgentRegistry.get_agents_by_domain in *. simpl. rewrite IH.
  destruct (decide (d = domain agent)); [by rewrite app_assoc | by rewrite app_nil_r].
Qed.
End RegistryFacts.

Lemma od_set_fresh {V} k (v : V) d :
  k ∉ OrderedDict.keys d → OrderedDict.set k v d = d ++ [(k, v)].
Proof.
  unfold OrderedDict.keys. induction d as [|[k0 v0] d IH]; [done |].
  csimpl. intros [Hne Hd]%not_elem_of_cons.
  rewrite decide_False by done. by rewrite IH.
Qed.


Lemma od_get_elem {V} k (v : V) d :
  NoDup (OrderedDict.keys d) →
  (k, v) ∈ d ↔ OrderedDict.get k d = Some v.
Proof.
  unfold OrderedDict.keys. induction d as [|[k0 v0] d IH]; csimpl.
  { intros _. split; [by intros ?%elem_of_nil | done]. }
  intros [Hk0 Hnd]%NoDup_cons. rewrite elem_of_cons.
  destruct (decide (k = k0)) as [->|Hne].
  - split; [|intros [= ->]; by left].
    intros [[= ->]|Hin]; [done |]. exfalso. apply Hk0.
    apply list_elem_of_fmap. by exists (k0, v).
  - rewrite <- (IH Hnd). split; [|by right]. by intros [[= ]|?].
Qed.

Lemma od_executors_lookup {World} (d : odict (UrbanZonesAgent World)) n :
  (list_to_map ((λ p, (p.1, executor p.2)) <$> d) : gmap string (Agent World)) !! n
  = executor <$> OrderedDict.get n d.
Proof.
  induction d as [|[k a] d IH]; csimpl; [done |].
  destruct (decide (n = k)) as [->|Hne].
  - by rewrite lookup_insert_eq.
  - by rewrite lookup_insert_ne.
Qed.

Lemma last_named_None {World} n (agents : list (UrbanZonesAgent World)) :
  last (named n agents) = None ↔ n ∉ agent_names agents.
Proof.
  rewrite last_None. unfold named, agent_names. split.
  - intros Hnil (a & -> & Ha)%list_elem_of_fmap.
    assert (a ∈ List.filter (λ a0, bool_decide (name (executor a0) = name (executor a)))
                  agents) as Hin
      by (apply list_elem_of_In, filter_In; split;
          [by apply list_elem_of_In | by apply bool_decide_eq_true_2]).
    rewrite Hnil in Hin. by apply elem_of_nil in Hin.
  - intros Hn. destruct (List.filter _ agents) as [|a l] eqn:Hf; [done |].
    exfalso. apply Hn.
    assert (a ∈ List.filter (λ a0, bool_decide (name (executor a0) = n)) agents)
      as Hin by (rewrite Hf; left).
    apply list_elem_of_In, filter_In in Hin as [Hin Hb].
    apply bool_decide_eq_true in Hb as <-.
    apply list_elem_of_fmap. exists a. split; [done | by apply list_elem_of_In].
Qed.

(** X12: in a registry filled by [register_agent], [get_agent] returns
    the agent registered last under the name asked for, and nothing for a
    name nobody registered; this is the agent whose [execute_task] the
    orchestrator runs for a step of that executor name. *)
Theorem X12_lookup_returns_latest_registration
    {World : Type} (agents : list (UrbanZonesAgent World)) (n : string) :
  let self := AgentRegistry.register_all AgentRegistry.init agents in
  AgentRegistry.get_agent self n = last (named n agents) ∧
  get_agent (AgentRegistry.executors self) n = executor <$> last (named n agents) ∧
  (AgentRegistry.get_agent self n = None ↔ n ∉ agent_names agents).
Proof.
  simpl.
  assert (H : AgentRegistry.get_agent
                (AgentRegistry.register_all AgentRegistry.init agents) n
              = last (named n agents)).
  { rewrite get_agent_register_all. by destruct (last (named n agents)). }
  split_and!; [done | |].
  - unfold get_agent, AgentRegistry.executors. rewrite od_executors_lookup.
    by rewrite <- H.
  - rewrite H. apply last_named_None.
Qed.

(** X13: [register_agent] only ever appends to the list of the agent's
    domain: in a registry filled by [register_agent], the list of a domain
    holds every agent registered with that domain, in order of
    registration, including an agent whose name was registered again
    later and that [get_agent] no longer returns. *)
Theorem X13_domain_lists_keep_every_registration
    {World : Type} (agents : list (UrbanZonesAgent World)) :
  let self := AgentRegistry.register_all AgentRegistry.init agents in
  (∀ d, AgentRegistry.get_agents_by_domain self d = of_domain d agents) ∧
  (∀ a, a ∈ agents → a ∈ AgentRegistry.get_agents_by_domain self (domain a)) ∧
  (∀ a d, a ∈ AgentRegistry.get_agents_by_domain self d → domain a = d) ∧
  (∀ a b l1 l2 l3, agents = l1 ++ a :: l2 ++ b :: l3 →
     name (executor a) = name (executor b) → a ≠ b →
     name (executor b) ∉ agent_names l3 →
     a ∈ AgentRegistry.get_agents_by_domain self (domain a) ∧
     AgentRegistry.get_agent self (name (executor a)) = Some b).
Proof.
  simpl.
  assert (H : ∀ d, AgentRegistry.get_agents_by_domain
                     (AgentRegistry.register_all AgentRegistry.init agents) d
                   = of_domain d agents)
    by (intros d; by rewrite domain_agents_register_all).
  assert (Hin : ∀ a, a ∈ agents →
            a ∈ AgentRegistry.get_agents_by_domain
                  (AgentRegistry.register_all AgentRegistry.init agents) (domain a)).
  { intros a Ha. rewrite H. apply list_elem_of_In, filter_In.
    split; [by apply list_elem_of_In | by apply bool_decide_eq_true_2]. }
  split_and!; [done | done | |].
  - intros a d. rewrite H. intros [_ Hd]%list_elem_of_In%filter_In.
    by apply bool_decide_eq_true in Hd.
  - intros a b l1 l2 l3 -> Hname Hne Hlast. split.
    + apply Hin. set_solver.
    + rewrite get_agent_register_all.
      replace (l1 ++ a :: l2 ++ b :: l3) with (((l1 ++ a :: l2) ++ [b]) ++ l3)
        by (by rewrite <- !app_assoc).
      apply last_named_None, last_None in Hlast. rewrite <- Hname in Hlast.
      assert (named (name (executor a)) (((l1 ++ a :: l2) ++ [b]) ++ l3)
              = named (name (executor a)) (l1 ++ a :: l2) ++ [b]) as ->.
      { unfold named at 1. rewrite List.filter_app.
        fold (named (name (executor a)) l3).
        fold (named (name (executor a)) ((l1 ++ a :: l2) ++ [b])).
        rewrite Hlast, app_nil_r, named_snoc. by rewrite decide_True. }
      by rewrite last_snoc.
Qed.

Lemma sum_of_domain {World} (agents : list (UrbanZonesAgent World)) :
  sum_list ((λ d, length (of_domain d agents)) <$> DomainType_members)
  = length agents.
Proof.
  induction agents as [|a agents IH]; [done |].
  revert IH. unfold of_domain. simpl.
  destruct (domain a); simpl; lia.
Qed.

Lemma agents_register_all_wf {World} (agents : list (UrbanZonesAgent World)) :
  let d := AgentRegistry._agents
             (AgentRegistry.register_all AgentRegistry.init agents) in
  NoDup (OrderedDict.keys d) ∧
  (∀ k a, (k, a) ∈ d → k = name (executor a)) ∧
  (∀ k, k ∈ OrderedDict.keys d ↔ k ∈ agent_names agents).
Proof.
  simpl. induction agents as [|a agents (Hnd & Hkey & Hkeys)] using rev_ind.
  { split_and!; [constructor | by intros k a ?%elem_of_nil | done]. }
  rewrite register_all_snoc. simpl. split_and!.
  - by apply od_keys_set_NoDup.
  - intros k b Hin.
    assert (Hnd' : NoDup (OrderedDict.keys
              (OrderedDict.set (name (executor a)) a
                 (AgentRegistry._agents
                    (AgentRegistry.register_all AgentRegistry.init agents)))))
      by (by apply od_keys_set_NoDup).
    apply (od_get_elem _ _ _ Hnd') in Hin.
    destruct (decide (name (executor a) = k)) as [<-|Hne].
    + rewrite od_get_set_eq in Hin. by injection Hin as <-.
    + rewrite od_get_set_ne in Hin by done.
      apply (od_get_elem _ _ _ Hnd) in Hin. by apply Hkey.
  - intros k. rewrite od_keys_set_elem, Hkeys. unfold agent_names.
    rewrite fmap_app, elem_of_app. csimpl. rewrite list_elem_of_singleton.
    naive_solver.
Qed.

(** X14: [list_all_agents] on a registry filled by [register_agent] lists
    one agent per registered name, namely the one [get_agent] returns for
    that name; it is never longer than the number of registrations, as
    long exactly when the registered names are distinct, and it is then
    the registered agents in order of registration. *)
Theorem X14_list_all_agents_one_per_name
    {World : Type} (agents : list (UrbanZonesAgent World)) :
  let self := AgentRegistry.register_all AgentRegistry.init agents in
  NoDup (agent_names (AgentRegistry.list_all_agents self)) ∧
  (∀ a, a ∈ AgentRegistry.list_all_agents self ↔
        AgentRegistry.get_agent self (name (executor a)) = Some a) ∧
  length (AgentRegistry.list_all_agents self) ≤ length agents ∧
  (length (AgentRegistry.list_all_agents self) = length agents ↔
     NoDup (agent_names agents)) ∧
  (NoDup (agent_names agents) → AgentRegistry.list_all_agents self = agents).
Proof.
  simpl. destruct (agents_register_all_wf agents) as (Hnd & Hkey & Hkeys).
  simpl in Hnd, Hkey, Hkeys.
  unfold AgentRegistry.list_all_agents, AgentRegistry.get_agent.
  set (d := AgentRegistry._agents
              (AgentRegistry.register_all AgentRegistry.init agents)) in *.
  assert (Hnames : agent_names (OrderedDict.values d) = OrderedDict.keys d).
  { unfold agent_names, OrderedDict.values, OrderedDict.keys.
    rewrite <- list_fmap_compose. apply Forall_fmap_ext, Forall_forall.
    intros [k a] Hin. simpl. symmetry. by apply Hkey. }
  assert (Hsub : OrderedDict.keys d ⊆+ agent_names agents).
  { apply NoDup_submseteq; [done |]. intros k. by rewrite Hkeys. }
  assert (Hlen : length (OrderedDict.values d) = length (OrderedDict.keys d)).
  { unfold OrderedDict.values, OrderedDict.keys. by rewrite !length_fmap. }
  assert (Hlen' : length (agent_names agents) = length agents)
    by (unfold agent_names; by rewrite length_fmap).
  split_and!.
  - by rewrite Hnames.
  - intros a. rewrite <- (od_get_elem _ _ _ Hnd). unfold OrderedDict.values.
    rewrite list_elem_of_fmap. split.
    + intros ([k b] & -> & Hin). simpl. by rewrite <- (Hkey k b Hin).
    + intros Hin. by exists (name (executor a), a).
  - rewrite Hlen, <- Hlen'. by apply submseteq_length.
  - rewrite Hlen, <- Hlen'. split.
    + intros Heq. apply submseteq_length_Permutation in Hsub; [|lia].
      by rewrite <- Hsub.
    + intros Hnd'. apply Nat.le_antisymm; [by apply submseteq_length |].
      apply submseteq_length, NoDup_submseteq; [done |].
      intros k. by rewrite Hkeys.
  - intros Hnd'. subst d. clear -Hnd'.
    assert (AgentRegistry._agents
              (AgentRegistry.register_all AgentRegistry.init agents)
            = entries agents) as ->.
    { induction agents as [|a agents IH] using rev_ind; [done |].
      unfold agent_names in Hnd'. rewrite fmap_app in Hnd'.
      apply NoDup_app in Hnd' as (Hnd1 & Hfresh & _).
      rewrite register_all_snoc. simpl. rewrite IH by done.
      unfold entries. rewrite fmap_app. apply od_set_fresh.
      unfold OrderedDict.keys. rewrite <- list_fmap_compose.
      intros Hin. apply (Hfresh _ Hin). simpl. left. }
    unfold OrderedDict.values, entries. rewrite <- list_fmap_compose.
    by rewrite list_fmap_id.
Qed.

Lemma get_domain_summary_eq {World} (self : AgentRegistry.t World) :
  AgentRegistry.get_domain_summary self
  = (λ d, (DomainType_value d,
           (length (AgentRegistry.get_agents_by_domain self d),
            agent_names (AgentRegistry.get_agents_by_domain self d))))
    <$> DomainType_members.
Proof. reflexivity. Qed.

Lemma total_agent_count_summary {World} (self : AgentRegistry.t World) :
  total_agent_count (AgentRegistry.get_domain_summary self)
  = sum_list ((λ d, length (AgentRegistry.get_agents_by_domain self d))
                <$> DomainType_members).
Proof. reflexivity. Qed.

(** X15: the summary of [get_domain_summary] has one entry per member of
    [DomainType], in declaration order; on a registry filled by
    [register_agent] the entry of a domain counts and names every
    registration made with that domain, so the counts add up to the
    number of registrations, which [list_all_agents] never exceeds. *)
Theorem X15_domain_summary_counts_registrations
    {World : Type} (agents : list (UrbanZonesAgent World)) :
  let self := AgentRegistry.register_all AgentRegistry.init agents in
  OrderedDict.keys (AgentRegistry.get_domain_summary self)
    = DomainType_value <$> DomainType_members ∧
  (∀ d, OrderedDict.get (DomainType_value d) (AgentRegistry.get_domain_summary self)
        = Some (length (of_domain d agents), agent_names (of_domain d agents))) ∧
  total_agent_count (AgentRegistry.get_domain_summary self) = length agents ∧
  length (AgentRegistry.list_all_agents self)
    ≤ total_agent_count (AgentRegistry.get_domain_summary self).
Proof.
  cbv zeta.
  assert (Htotal : total_agent_count
            (AgentRegistry.get_domain_summary
               (AgentRegistry.register_all AgentRegistry.init agents))
          = length agents).
  { rewrite total_agent_count_summary. rewrite <- (sum_of_domain agents).
    f_equal. apply Forall_fmap_ext, Forall_forall. intros d _.
    by rewrite domain_agents_register_all. }
  split_and!.
  - reflexivity.
  - intros d. rewrite get_domain_summary_eq.
    assert (AgentRegistry.get_agents_by_domain
              (AgentRegistry.register_all AgentRegistry.init agents) d
            = of_domain d agents) as <-
      by (by rewrite domain_agents_register_all).
    by destruct d.
  - done.
  - rewrite Htotal.
    destruct (agents_register_all_wf agents) as (Hnd & _ & Hkeys).
    simpl in Hnd, Hkeys. unfold AgentRegistry.list_all_agents.
    unfold OrderedDict.values. rewrite length_fmap.
    rewrite <- (length_fmap fst), <- (length_fmap (λ a, name (executor a)) agents).
    apply submseteq_length, NoDup_submseteq; [done |].
    intros k. by rewrite Hkeys.
Qed.






(** ** The order of invocation *)

Section Schedule.
Context {World : Type}.
Variable registry : gmap string (Agent World).
Variable steps : list WorkflowStep.
Implicit Types (m : Machine World) (sr : odict TaskResult) (cs : gset string).
Hypothesis ids_unique : NoDup (step_id <$> steps).

Lemma wave_loop_schedule fuel context sr cs m out m' :
  context < length (heap m) →
  (∀ d, d ∈ cs ↔ d ∈ OrderedDict.keys sr) →
  (∀ d, d ∈ cs → d ∈ step_id <$> steps) →
  wave_loop registry fuel steps context sr cs m = (out, m') →
  ∃ ncalls,
    calls m' = calls m ++ ncalls ∧
    call_step <$> ncalls `prefix_of` schedule registry fuel steps cs ∧
    ∀ srf, out = Ok srf →
      call_step <$> ncalls = schedule registry fuel steps cs.
Proof.
  revert sr cs m.
  induction fuel as [|fuel IH]; intros sr cs m Hctx Hinv Hsub Hrun.
  { injection Hrun as <- <-. exists []. by rewrite app_nil_r. }
  cbn [wave_loop schedule] in Hrun |- *.
  destruct (size cs <? length steps).
  2: { injection Hrun as <- <-. exists []. by rewrite app_nil_r. }
  destruct (ready_steps steps cs) as [|s0 rest] eqn:Hready.
  { injection Hrun as <- <-. exists []. by rewrite app_nil_r. }
  unfold bind in Hrun.
  destruct (run_wave registry (s0 :: rest) context sr cs m) as [o m1] eqn:Hwave.
  pose proof Hwave as Hspec.
  apply (run_wave_spec registry steps) in Hspec
    as (nc & _ & _ & Hlen1 & _ & _ & _ & Hok1);
    [| by rewrite Hready | done..].
  rewrite <- Hready in Hwave.
  apply (run_wave_trace registry steps ids_unique) in Hwave
    as (ncalls1 & Hcalls1 & Hpre1 & Htr1); [| done..].
  rewrite Hready in Hpre1, Htr1.
  destruct o as [[sr1 cs1]| | |].
  2-4: injection Hrun as <- <-; exists ncalls1; split_and!;
       [done | by apply prefix_app_r | done].
  destruct (Hok1 sr1 cs1 eq_refl) as (Hcs1 & Hinv1 & Hsub1 & _).
  destruct (Htr1 sr1 cs1 eq_refl) as [Hsteps1 _].
  apply IH in Hrun as (ncalls2 & Hcalls2 & Hpre2 & Hok2); [| lia | done | done].
  exists (ncalls1 ++ ncalls2). rewrite fmap_app, Hsteps1, <- Hcs1. split_and!.
  - by rewrite Hcalls2, Hcalls1, <- app_assoc.
  - by apply prefix_app.
  - intros srf Heq. by rewrite (Hok2 srf Heq).
Qed.
End Schedule.

(** X17: the order in which [execute_workflow] invokes the executors is
    fixed by the definition and by which executor names are registered:
    with distinct step ids, the steps invoked are a prefix of the
    schedule (wave after wave, the ready steps that have an agent, in
    the order of the definition), whatever the executors do and whatever
    the context holds; on the normal path they are the whole schedule,
    and [step_results] lists its ids in that order. *)
Theorem X17_invocation_order_is_static
    {World : Type} (registry : gmap string (Agent World))
    (get_definition : WorkflowType → list WorkflowStep)
    (fuel : nat) (workflow_type : WorkflowType) (context : nat)
    (m : Machine World) :
  NoDup (step_id <$> get_definition workflow_type) →
  context < length (heap m) →
  ∃ ncalls,
    calls (execute_workflow_with registry get_definition fuel
             workflow_type context m).2 = calls m ++ ncalls ∧
    call_step <$> ncalls
      `prefix_of` schedule registry fuel (get_definition workflow_type) ∅ ∧
    ∀ r, (execute_workflow_with registry get_definition fuel
            workflow_type context m).1 = Ok r →
      is_error_summary (summary r) = false →
      call_step <$> ncalls
        = schedule registry fuel (get_definition workflow_type) ∅ ∧
      OrderedDict.keys (step_results r)
        = step_id <$> schedule registry fuel (get_definition workflow_type) ∅.
Proof.
  intros Hnd Hctx.
  destruct (execute_workflow_with_inv registry get_definition fuel
              workflow_type context m) as (Hout & _ & _ & Hcalls).
  destruct (execute_workflow_trace registry get_definition (λ _, True)
              fuel workflow_type context m Hnd) as (ncalls' & Hc' & _ & _ & Hkeys);
    [done.. |].
  destruct (_execute_workflow_steps registry fuel (get_definition workflow_type)
              context m) as [o m1] eqn:Hrun.
  simpl in Hout, Hcalls.
  apply (wave_loop_schedule registry _ Hnd) in Hrun
    as (ncalls & Hc & Hpre & Hfull); [| done | set_solver | set_solver].
  assert (ncalls' = ncalls) as ->.
  { rewrite Hcalls, Hc in Hc'. by apply app_inv_head in Hc'. }
  exists ncalls. split_and!; [by rewrite Hcalls | done |].
  intros r Hr Hnorm. specialize (Hkeys r Hr Hnorm).
  rewrite Hout in Hr.
  destruct o as [sr|e| |]; try done.
  - rewrite Hkeys. by rewrite (Hfull sr eq_refl).
  - simpl in Hr. injection Hr as <-. done.
Qed.

Lemma X17_invocation_order_is_static_witness :
  NoDup (step_id <$> Examples.diamond) ∧
  0 < length (heap Examples.machine0) ∧
  ∃ ncalls,
    calls (execute_workflow_with Examples.registry1 (λ _, Examples.diamond) 4
             BUSINESS_EXPANSION 0 Examples.machine0).2
      = calls Examples.machine0 ++ ncalls ∧
    call_step <$> ncalls `prefix_of` Examples.diamond.
Proof.
  assert (Hnd : NoDup (step_id <$> Examples.diamond)) by exact diamond_ids_unique.
  assert (Hctx : 0 < length (heap Examples.machine0)) by (simpl; lia).
  split; [exact Hnd |]. split; [exact Hctx |].
  destruct (X17_invocation_order_is_static Examples.registry1
              (λ _, Examples.diamond) 4 BUSINESS_EXPANSION 0 Examples.machine0
              Hnd Hctx) as (ncalls & Hc & Hpre & _).
  exists ncalls. split; [exact Hc |].
  assert (Hs : schedule Examples.registry1 4 Examples.diamond ∅ = Examples.diamond)
    by (vm_compute; reflexivity).
  by rewrite <- Hs.
Defined.
